(** * w-geo: depth intervals of borehole samples

    A shallow embedding of three functions of the repository,

    - [calcDepthStartEndFromCenter] (start and end depths from centre depths),
    - [checkDepthStartEnd]          (validity and continuity of intervals),
    - [groupByDepthStartEnd]        (samples grouped by target ranges),

    and the properties the specification states about them.

    JavaScript values are modelled by value: a number is an IEEE 754
    binary64 ([PrimFloat.float]), an object is the list of its own
    properties in insertion order, an array is a list.  lodash
    [get(v, key, default)] is modelled for a key that is a property name
    ([get]) and for a path that is split into keys ([getIn]); the
    built-in properties of strings and arrays (length, the characters of
    a string) are not modelled, nor are the properties an object
    inherits (constructor, toString).

    Where the source writes to an object and reads it again, the objects
    are a store that the steps read and write: the sorted array of
    [calcDepthStartEndFromCenter], the objects of the caller it writes
    to ([calcInPlace]), and the target ranges of [groupByDepthStartEnd],
    which may hold one object at two positions
    ([groupByDepthStartEndShared]). *)

From Stdlib Require Import ZArith List String Ascii Floats Bool Lia Permutation Sorted.
From Stdlib Require Import DecimalNat DecimalString.
Import ListNotations.

Set Warnings "-register-all".

(** ** JavaScript values *)

Inductive jsval : Type :=
| JUndefined
| JNull
| JBool (b : bool)
| JNum (x : float)
| JStr (s : string)
| JArr (xs : list jsval)
| JObj (ps : list (string * jsval)).

(** The elements of an array (no elements for any other value). *)
Definition elements (v : jsval) : list jsval :=
  match v with
  | JArr xs => xs
  | _ => []
  end.

(** ** Messages and exceptions

    Every message the three functions build is a template string; a
    constructor stands for the template and carries the interpolated
    values in the order of the template. *)

Inductive violation : Type :=
(* `第 ${k} 樣本中點深度${keyDepth}[${dc}]非有效數字` *)
| DepthNotNumber (k : nat) (keyDepth : string) (dc : jsval)
(* `第 ${k - 1} 樣本之中點深度${keyDepth}[${dc0}]大於等於第 ${k} 樣本之中點深度${keyDepth}[${dc1}]` *)
| DepthNotIncreasing (k0 : Z) (keyDepth : string) (dc0 : float) (k : nat) (dc1 : float)
(* `第 ${k} 樣本起始深度${keyDepthStart}[${ds}]非有效數字` *)
| StartNotNumber (k : nat) (keyDepthStart : string) (ds : jsval)
(* `第 ${k} 樣本結束深度${keyDepthEnd}[${de}]非有效數字` *)
| EndNotNumber (k : nat) (keyDepthEnd : string) (de : jsval)
(* `第 ${k} 個樣本起始深度${keyDepthStart}[${ds1}]大於結束深度${keyDepthEnd}[${de1}]` *)
| StartAfterEnd (k : nat) (keyDepthStart : string) (ds1 : float) (keyDepthEnd : string) (de1 : float)
(* `第 ${k} 樣本結束深度${keyDepthEnd}[${de0}]不等於第 ${k + 1} 個樣本起始深度${keyDepthStart}[${ds1}]` *)
| EndNotNextStart (k : nat) (keyDepthEnd : string) (de0 : float) (k1 : nat) (keyDepthStart : string) (ds1 : float)
(* `群組用起訖深度陣列中，第 ${k} 元素之起始深度${keyDepthStart}[${ds}]非有效數字` *)
| RangeStartNotNumber (k : nat) (keyDepthStart : string) (ds : jsval)
(* `群組用起訖深度陣列中，第 ${k} 元素之結束深度${keyDepthEnd}[${de}]非有效數字` *)
| RangeEndNotNumber (k : nat) (keyDepthEnd : string) (de : jsval)
(* `群組用起訖深度陣列中，第 ${k} 元素之起始深度${keyDepthStart}[${ds1}]大於結束深度${keyDepthEnd}[${de1}]` *)
| RangeStartAfterEnd (k : nat) (keyDepthStart : string) (ds1 : float) (keyDepthEnd : string) (de1 : float)
(* `第 ${k} 樣本結束深度${keyDepthEnd}[${de0}]大於第 ${k + 1} 個樣本起始深度${keyDepthStart}[${ds1}]` *)
| RangeEndAfterNextStart (k : nat) (keyDepthEnd : string) (de0 : float) (k1 : nat) (keyDepthStart : string) (ds1 : float).

(** The text of a thrown [Error]. *)
Inductive message : Type :=
| NoValidData                                      (* '無有效資料' *)
| NoValidRanges                                    (* '無有效起訖深度資料' *)
| Joined (sep : string) (errs : list violation).   (* join(errs, sep) *)

Inductive exn : Type :=
| TypeError          (* a property of null or undefined is read, or a property of a primitive is written *)
| Error (m : message).

Inductive result (A : Type) : Type :=
| Ok (a : A)
| Throw (e : exn).

Arguments Ok {A} a.
Arguments Throw {A} e.

Definition bind {A B : Type} (m : result A) (k : A -> result B) : result B :=
  match m with
  | Ok a => k a
  | Throw e => Throw e
  end.

Notation "x <- m ;; k" := (bind m (fun x => k))
  (at level 61, m at next level, right associativity).
Notation "' p <- m ;; k" := (bind m (fun x => let p := x in k))
  (at level 61, p pattern, m at next level, right associativity).

Fixpoint mapM {A B : Type} (f : A -> result B) (l : list A) : result (list B) :=
  match l with
  | [] => Ok []
  | a :: l' => b <- f a ;; bs <- mapM f l' ;; Ok (b :: bs)
  end.

(** ** Numbers

    The relational operators of JavaScript on two numbers, and
    [Math.min]. *)

Definition num_gt (a b : float) : bool := PrimFloat.ltb b a.      (* a > b *)
Definition num_ge (a b : float) : bool := PrimFloat.leb b a.      (* a >= b *)
Definition num_le (a b : float) : bool := PrimFloat.leb a b.      (* a <= b *)
Definition num_strict_ne (a b : float) : bool := negb (PrimFloat.eqb a b).   (* a !== b *)

Definition Math_min (a b : float) : float :=
  if PrimFloat.is_nan a || PrimFloat.is_nan b then nan
  else if PrimFloat.ltb a b then a
  else if PrimFloat.ltb b a then b
  else match PrimFloat.classify a with
       | NZero => a
       | _ => b
       end.

(** The midpoint as the source computes it: [(a + b) / 2]. *)
Definition midpoint (a b : float) : float := ((a + b) / 2)%float.

(** An order-preserving key of a float that is not NaN: sign class, then
    exponent, then mantissa, the last two negated below zero. *)
Definition SFk1 (f : spec_float) : Z :=
  match f with
  | S754_zero _ => 0
  | S754_infinity s => if s then -2 else 2
  | S754_nan => 0
  | S754_finite s _ _ => if s then -1 else 1
  end.

Definition SFk2 (f : spec_float) : Z :=
  match f with
  | S754_finite s _ e => if s then - e else e
  | _ => 0
  end.

Definition SFk3 (f : spec_float) : Z :=
  match f with
  | S754_finite s m _ => if s then Z.neg m else Z.pos m
  | _ => 0
  end.

Definition k1 (x : float) : Z := SFk1 (Prim2SF x).
Definition k2 (x : float) : Z := SFk2 (Prim2SF x).
Definition k3 (x : float) : Z := SFk3 (Prim2SF x).

Definition klt (a b : float) : Prop :=
  (k1 a < k1 b \/ (k1 a = k1 b /\ (k2 a < k2 b \/ (k2 a = k2 b /\ k3 a < k3 b))))%Z.

Definition keq (a b : float) : Prop :=
  (k1 a = k1 b /\ k2 a = k2 b /\ k3 a = k3 b)%Z.

Definition not_nan (x : float) : Prop := Prim2SF x <> S754_nan.

(** ** Objects and arrays: property access and lodash helpers *)

Fixpoint lookup (key : string) (ps : list (string * jsval)) : option jsval :=
  match ps with
  | [] => None
  | (k, x) :: ps' => if String.eqb k key then Some x else lookup key ps'
  end.

(** lodash [get(object, key, defaultValue)]: the default stands for a
    missing object, a missing property and an undefined property. *)
Definition get (v : jsval) (key : string) (dflt : jsval) : jsval :=
  match v with
  | JObj ps =>
      match lookup key ps with
      | Some JUndefined | None => dflt
      | Some x => x
      end
  | _ => dflt
  end.

(** lodash [get(array, index)]: undefined outside the array. *)
Definition getAt (xs : list jsval) (i : Z) : jsval :=
  if (i <? 0)%Z then JUndefined else nth (Z.to_nat i) xs JUndefined.

(** [v[key]]: reading a property of null or undefined throws. *)
Definition member (v : jsval) (key : string) : result jsval :=
  match v with
  | JUndefined | JNull => Throw TypeError
  | JObj ps =>
      match lookup key ps with
      | Some x => Ok x
      | None => Ok JUndefined
      end
  | _ => Ok JUndefined
  end.

(** The text of an index in a template string: its decimal digits. *)
Definition index (k : nat) : string := NilEmpty.string_of_uint (Nat.to_uint k).

(** A name without a dot or a bracket: lodash reads it as one key. *)
Definition plainName (s : string) : bool :=
  forallb (fun c => negb (Ascii.eqb c "."%char || Ascii.eqb c "["%char || Ascii.eqb c "]"%char))
          (list_ascii_of_string s).

(** [xs[key]] for an array: the element, when the key is the text of an
    index. *)
Definition arrayAt (xs : list jsval) (key : string) : jsval :=
  match find (fun i => String.eqb (index i) key) (seq 0 (List.length xs)) with
  | Some i => nth i xs JUndefined
  | None => JUndefined
  end.

(** [v[key]] for a value that is not null or undefined. *)
Definition prop (v : jsval) (key : string) : jsval :=
  match v with
  | JObj ps =>
      match lookup key ps with
      | Some x => x
      | None => JUndefined
      end
  | JArr xs => arrayAt xs key
  | _ => JUndefined
  end.

(** lodash [baseGet] along the keys of a path: it stops at null and
    undefined. *)
Fixpoint baseGet (v : jsval) (path : list string) : jsval :=
  match path with
  | [] => v
  | key :: path' =>
      match v with
      | JUndefined | JNull => JUndefined
      | _ => baseGet (prop v key) path'
      end
  end.

(** lodash [get(object, path, defaultValue)] for a path that is split
    into the keys [path]. *)
Definition getIn (v : jsval) (path : list string) (dflt : jsval) : jsval :=
  match path with
  | [] => dflt
  | _ :: _ =>
      match baseGet v path with
      | JUndefined => dflt
      | x => x
      end
  end.

(** An existing property keeps its place, a new one goes last. *)
Fixpoint assign (key : string) (x : jsval) (ps : list (string * jsval)) : list (string * jsval) :=
  match ps with
  | [] => [(key, x)]
  | (k, y) :: ps' => if String.eqb k key then (k, x) :: ps' else (k, y) :: assign key x ps'
  end.

(** [v[key] = x] in a module (strict mode): a primitive throws.  (An
    array would take the property; arrays with named properties are not
    modelled, and no value that passes a validation below is one.) *)
Definition setProp (v : jsval) (key : string) (x : jsval) : result jsval :=
  match v with
  | JObj ps => Ok (JObj (assign key x ps))
  | _ => Throw TypeError
  end.

(** lodash [cloneDeep] of a value: the copy has the fields of the
    original.  An object that the original holds at two places is copied
    once, so the copy holds one object at the same two places: for an
    array whose objects are written to, the places are kept beside the
    objects ([entries] below) and go over to the copy as they are. *)
Definition cloneDeep (v : jsval) : jsval := v.

(** An array some of whose positions may hold one object: the objects,
    each once, and for every position of the array the index of the
    object it holds. *)
Definition entries (objects : list jsval) (places : list nat) : list jsval :=
  map (fun p => nth p objects JUndefined) places.

(** lodash [each(array, (v, k) => ...)] for a callback that only pushes
    to the error list: the pushes of every element, in order. *)
Fixpoint each_from (f : jsval -> nat -> list violation) (k : nat) (xs : list jsval) : list violation :=
  match xs with
  | [] => []
  | v :: xs' => f v k ++ each_from f (S k) xs'
  end.

Definition each (xs : list jsval) (f : jsval -> nat -> list violation) : list violation :=
  each_from f 0 xs.

(** lodash [compareAscending] on two numbers. *)
Definition compareAscending (value other : float) : Z :=
  if negb (PrimFloat.eqb value other) then
    if PrimFloat.ltb other value || PrimFloat.is_nan value then 1
    else if PrimFloat.ltb value other || PrimFloat.is_nan other then -1
    else 0
  else 0.

(** lodash [compareMultiple] for one criterion: ties go by index. *)
Definition compareMultiple (object other : float * nat * jsval) : Z :=
  let r := compareAscending (fst (fst object)) (fst (fst other)) in
  if (r =? 0)%Z then (Z.of_nat (snd (fst object)) - Z.of_nat (snd (fst other)))%Z else r.

Fixpoint insertSorted (x : float * nat * jsval) (l : list (float * nat * jsval)) : list (float * nat * jsval) :=
  match l with
  | [] => [x]
  | y :: l' => if (compareMultiple x y <=? 0)%Z then x :: y :: l' else y :: insertSorted x l'
  end.

Definition baseSortBy (l : list (float * nat * jsval)) : list (float * nat * jsval) :=
  fold_right insertSorted [] l.

(** lodash [sortBy(array, iteratee)]: the criteria of all elements are
    computed first (an iteratee that throws ends the call), then the
    elements are sorted by criterion, ascending and stable. *)
Definition sortBy (xs : list jsval) (iteratee : jsval -> result float) : result (list jsval) :=
  cs <- mapM iteratee xs ;;
  Ok (map snd (baseSortBy (combine (combine cs (seq 0 (List.length xs))) xs))).


(** lodash [pullAt(array, indexes)]: the array without the elements at
    the indexes. *)
Fixpoint pullAt_from (k : nat) (ts : list jsval) (indexes : list nat) : list jsval :=
  match ts with
  | [] => []
  | t :: ts' =>
      if existsb (Nat.eqb k) indexes then pullAt_from (S k) ts' indexes
      else t :: pullAt_from (S k) ts' indexes
  end.

Definition pullAt (ts : list jsval) (indexes : list nat) : list jsval :=
  pullAt_from 0 ts indexes.

(** ** wsemi predicates on the shape of a value *)

(** Modelled from the spec: wsemi's isestr is not among the sources; it
    is the predicate for a non-empty string. *)
Definition isestr (v : jsval) : bool :=
  match v with
  | JStr s => negb (String.eqb s EmptyString)
  | _ => false
  end.

(** Modelled from the spec: wsemi's iseobj is not among the sources; it
    is the predicate for an object of entries (a non-empty object). *)
Definition iseobj (v : jsval) : bool :=
  match v with
  | JObj (_ :: _) => true
  | _ => false
  end.

(** An option of the configuration object, with its default:
    [let key = get(opt, name); if (!isestr(key)) key = dflt]. *)
Definition optKey (opt : jsval) (name dflt : string) : string :=
  match get opt name JUndefined with
  | JStr s => if isestr (JStr s) then s else dflt
  | _ => dflt
  end.

(** ** The collaborators

    wsemi's [isnum] and [cdbl] (is the value a number, and the value as
    a number) and [isearr] (is the value an array of entries), the
    coercion the relational operators of JavaScript apply to an operand
    that is not a number, and lodash's [stringToPath] (the keys of a path
    that [get] splits).  None of them is among the sources; they are
    taken as an interface, and what is assumed of them is stated where
    it is used. *)
Class Collaborators : Type := {
  isnum : jsval -> bool;
  cdbl : jsval -> float;
  ToNumber : jsval -> float;
  isearr : jsval -> bool;
  stringToPath : string -> list string
}.

(** A reference instance on numeric fields: a finite number is valid
    and stands for itself; no string is parsed. *)
Definition isnum_ref (v : jsval) : bool :=
  match v with
  | JNum x => PrimFloat.is_finite x
  | _ => false
  end.

Definition cdbl_ref (v : jsval) : float :=
  match v with
  | JNum x => if PrimFloat.is_finite x then x else 0%float
  | _ => 0%float
  end.

Definition ToNumber_ref (v : jsval) : float :=
  match v with
  | JNum x => x
  | JNull => 0%float
  | JBool b => if b then 1%float else 0%float
  | _ => nan
  end.

(** A reference instance of [isearr]: an array that is not empty and is
    not a single entry that is itself empty (null, undefined, the empty
    string, the empty array or the empty object). *)
Definition iser_ref (v : jsval) : bool :=
  match v with
  | JUndefined | JNull | JStr EmptyString | JArr [] | JObj [] => true
  | _ => false
  end.

Definition isearr_ref (v : jsval) : bool :=
  match v with
  | JArr [x] => negb (iser_ref x)
  | JArr (_ :: _ :: _) => true
  | _ => false
  end.

(** A reference instance of [stringToPath], for paths without brackets:
    the keys are the parts of the path between its dots. *)
Fixpoint stringToPath_ref (s : string) : list string :=
  match s with
  | EmptyString => [EmptyString]
  | String c s' =>
      if Ascii.eqb c "."%char then EmptyString :: stringToPath_ref s'
      else
        match stringToPath_ref s' with
        | [] => [String c EmptyString]
        | key :: keys => String c key :: keys
        end
  end.

Definition ref : Collaborators :=
  {| isnum := isnum_ref; cdbl := cdbl_ref; ToNumber := ToNumber_ref;
     isearr := isearr_ref; stringToPath := stringToPath_ref |}.

(** Records of the examples: a sample at a centre depth, and a range. *)
Definition sample (d : float) : jsval := JObj [("depth"%string, JNum d)].

Definition range (a b : float) : jsval :=
  JObj [("depthStart"%string, JNum a); ("depthEnd"%string, JNum b)].

(** The operators [checkDepthStartEnd] passes to judge. *)
Inductive relop : Type :=
| OpGt          (* '>' *)
| OpStrictNe.   (* '!==' *)

(** Modelled from the spec: judge is defined in dm.mjs, which is not
    among the sources.  The validator compares with exact numeric
    comparison: start > end, and previous end not exactly equal to next
    start (exact numeric equality, not proximity). *)
Definition judge (a : float) (op : relop) (b : float) : bool :=
  match op with
  | OpGt => num_gt a b
  | OpStrictNe => num_strict_ne a b
  end.

(** The array with its element at index [k] replaced. *)
Fixpoint update (k : nat) (v : jsval) (xs : list jsval) : list jsval :=
  match xs, k with
  | [], _ => []
  | _ :: xs', O => v :: xs'
  | x :: xs', S k' => x :: update k' v xs'
  end.

(** A loop over the indexes [ks] of an array whose objects the callback
    updates in place: the array is the store each step reads and writes. *)
Fixpoint mapRows (step : list jsval -> nat -> result (list jsval)) (ks : list nat)
    (rows : list jsval) : result (list jsval) :=
  match ks with
  | [] => Ok rows
  | k :: ks' => rows' <- step rows k ;; mapRows step ks' rows'
  end.


(** ** The derived intervals in the words of the specification

    Over the centre depths in sorted order: the first interval starts at
    [min(0, depth(0))], every other one at the midpoint with the depth
    before; the last interval ends at its own depth, every other one at
    the midpoint with the depth after. *)

Definition startAt (depth : list float) (i : nat) : float :=
  match i with
  | O => Math_min 0 (nth 0 depth 0%float)
  | S j => midpoint (nth j depth 0%float) (nth i depth 0%float)
  end.

Definition endAt (depth : list float) (i : nat) : float :=
  if (S i =? List.length depth)%nat then nth i depth 0%float
  else midpoint (nth i depth 0%float) (nth (S i) depth 0%float).

(** ** The three functions *)

Section Functions.

Context {C : Collaborators}.

(** The centre depths of the rows, as numbers. *)
Definition depthsOf (keyDepth : string) (rows : list jsval) : list float :=
  map (fun v => cdbl (get v keyDepth JNull)) rows.

(** The first loop of [calcDepthStartEndFromCenter] and of
    [groupByDepthStartEnd]: every centre depth must be a number. *)
Definition depthErrs (keyDepth : string) (rows : list jsval) : list violation :=
  each rows (fun v k =>
    let dc := get v keyDepth JNull in
    if isnum dc then [] else [DepthNotNumber k keyDepth dc]).

(** The second loop of [calcDepthStartEndFromCenter], over the sorted
    rows: the centre depths must increase.  The depth of the row before
    is read from the array through the path [`${k - 1}.${keyDepth}`],
    which lodash splits into keys; the depth of the row itself is read by
    its key. *)
Definition increasingErrs (keyDepth : string) (rows : list jsval) : list violation :=
  each rows (fun v k =>
    if (k =? 0)%nat then []
    else
      let dc0 := getIn (JArr rows) (stringToPath (index (k - 1) ++ "." ++ keyDepth)%string) JNull in
      let dc1 := get v keyDepth JNull in
      let dc0 := cdbl dc0 in
      let dc1 := cdbl dc1 in
      if num_ge dc0 dc1 then [DepthNotIncreasing (Z.of_nat k - 1) keyDepth dc0 k dc1] else []).

(** The callback of the final [map] of [calcDepthStartEndFromCenter] at
    index [k]; [rows] is the sorted array, whose objects the earlier
    steps have already written to.  (The rows are distinct objects: the
    validation has rejected equal depths.) *)
Definition deriveRow (keyDepth keyDepthStart keyDepthEnd : string) (up : Z)
    (rows : list jsval) (k : nat) : result (list jsval) :=
  let v := nth k rows JUndefined in
  let v0 := getAt rows (Z.of_nat k - 1) in
  let v1 := v in
  let v2 := getAt rows (Z.of_nat k + 1) in
  let dc0 := get v0 keyDepth JNull in
  let dc1 := get v1 keyDepth JNull in
  let dc2 := get v2 keyDepth JNull in
  (* ds; dc1 is reassigned to a number where the source converts it *)
  let '(ds, dc1) :=
    if (k =? 0)%nat then
      if isnum dc1 then (JNum (Math_min 0 (cdbl dc1)), JNum (cdbl dc1))
      else (JNum 0, dc1)
    else if isnum dc0 && isnum dc1 then (JNum (midpoint (cdbl dc0) (cdbl dc1)), JNum (cdbl dc1))
    else (JNull, dc1) in
  (* de *)
  let de :=
    if (Z.of_nat k =? up)%Z then
      if isnum dc1 then JNum (cdbl dc1) else JNull
    else if isnum dc1 && isnum dc2 then JNum (midpoint (cdbl dc1) (cdbl dc2))
    else JNull in
  (* save *)
  v <- setProp v keyDepthStart ds ;;
  v <- setProp v keyDepthEnd de ;;
  Ok (update k v rows).

Definition calcDepthStartEndFromCenter (rows opt : jsval) : result jsval :=
  if negb (isearr rows) then Throw (Error NoValidData)
  else
    let keyDepth := optKey opt "keyDepth" "depth" in
    let keyDepthStart := optKey opt "keyDepthStart" "depthStart" in
    let keyDepthEnd := optKey opt "keyDepthEnd" "depthEnd" in
    let errs := depthErrs keyDepth (elements rows) in
    if (0 <? List.length errs)%nat then Throw (Error (Joined "; " errs))
    else
      rows <- sortBy (elements rows) (fun v => x <- member v keyDepth ;; Ok (cdbl x)) ;;
      let errs := (errs ++ increasingErrs keyDepth rows)%list in
      if (0 <? List.length errs)%nat then Throw (Error (Joined "; " errs))
      else
        let up := (Z.of_nat (List.length rows) - 1)%Z in
        rows <- mapRows (deriveRow keyDepth keyDepthStart keyDepthEnd up)
                  (seq 0 (List.length rows)) rows ;;
        Ok (JArr rows).






(** The first loop of [checkDepthStartEnd]. *)
Definition startEndErrs (keyDepthStart keyDepthEnd : string) (rows : list jsval) : list violation :=
  each rows (fun v k =>
    let ds := get v keyDepthStart JNull in
    let de := get v keyDepthEnd JNull in
    ((if isnum ds then [] else [StartNotNumber k keyDepthStart ds]) ++
     (if isnum de then [] else [EndNotNumber k keyDepthEnd de]))%list).

(** The second loop of [checkDepthStartEnd], over the sorted rows. *)
Definition continuityErrs (keyDepthStart keyDepthEnd : string) (rows : list jsval) : list violation :=
  each rows (fun v k =>
    let ds1 := get v keyDepthStart JNull in
    let de1 := get v keyDepthEnd JNull in
    let ds1 := cdbl ds1 in
    let de1 := cdbl de1 in
    ((if judge ds1 OpGt de1 then [StartAfterEnd k keyDepthStart ds1 keyDepthEnd de1] else []) ++
     (if (k =? 0)%nat then []
      else
        let v0 := getAt rows (Z.of_nat k - 1) in
        let de0 := get v0 keyDepthEnd JNull in
        let de0 := cdbl de0 in
        if judge de0 OpStrictNe ds1
        then [EndNotNextStart k keyDepthEnd de0 (k + 1) keyDepthStart ds1]
        else []))%list).

Definition checkDepthStartEnd (rows opt : jsval) : result (list violation) :=
  if negb (isearr rows) then Ok []
  else
    let keyDepthStart := optKey opt "keyDepthStart" "depthStart" in
    let keyDepthEnd := optKey opt "keyDepthEnd" "depthEnd" in
    let errs := startEndErrs keyDepthStart keyDepthEnd (elements rows) in
    rows <- sortBy (elements rows) (fun v => x <- member v keyDepthStart ;; Ok (cdbl x)) ;;
    Ok (errs ++ continuityErrs keyDepthStart keyDepthEnd rows)%list.

(** Modelled from the spec: checkDepth.mjs is not among the sources.
    Given sorted records and a depth field name, it returns the
    violations for non-increasing adjacent depths: any pair where the
    depth of the record before is greater than or equal to the depth of
    the record. *)
Definition checkDepth (rows : list jsval) (keyDepth : string) : list violation :=
  each rows (fun v k =>
    if (k =? 0)%nat then []
    else
      let dc0 := get (getAt rows (Z.of_nat k - 1)) keyDepth JNull in
      let dc1 := get v keyDepth JNull in
      let dc0 := cdbl dc0 in
      let dc1 := cdbl dc1 in
      if num_ge dc0 dc1 then [DepthNotIncreasing (Z.of_nat k - 1) keyDepth dc0 k dc1] else []).

(** The loops of [groupByDepthStartEnd] over the target ranges. *)
Definition rangeNumberErrs (keyDepthStart keyDepthEnd : string) (ranges : list jsval) : list violation :=
  each ranges (fun v k =>
    let ds := get v keyDepthStart JNull in
    let de := get v keyDepthEnd JNull in
    ((if isnum ds then [] else [RangeStartNotNumber k keyDepthStart ds]) ++
     (if isnum de then [] else [RangeEndNotNumber k keyDepthEnd de]))%list).

Definition rangeOrderErrs (keyDepthStart keyDepthEnd : string) (ranges : list jsval) : list violation :=
  each ranges (fun v k =>
    let ds1 := get v keyDepthStart JNull in
    let de1 := get v keyDepthEnd JNull in
    let ds1 := cdbl ds1 in
    let de1 := cdbl de1 in
    ((if num_gt ds1 de1 then [RangeStartAfterEnd k keyDepthStart ds1 keyDepthEnd de1] else []) ++
     (if (k =? 0)%nat then []
      else
        let v0 := getAt ranges (Z.of_nat k - 1) in
        let de0 := get v0 keyDepthEnd JNull in
        let de0 := cdbl de0 in
        if num_gt de0 ds1
        then [RangeEndAfterNextStart k keyDepthEnd de0 (k + 1) keyDepthStart ds1]
        else []))%list).

(** The scan of the pool [ts] for one range: the indexes and the samples
    with [ds <= depth <= de], up to the first sample deeper than [de].
    The depth is the raw field: the operators coerce it. *)
Fixpoint detect (keyDepth : string) (ds de : float) (kt : nat) (ts : list jsval)
    : result (list nat * list jsval) :=
  match ts with
  | [] => Ok ([], [])
  | t :: ts' =>
      rdc <- member t keyDepth ;;
      let hit := num_ge (ToNumber rdc) ds && num_le (ToNumber rdc) de in
      let rdels := if hit then [kt] else [] in
      let rrows := if hit then [t] else [] in
      if num_gt (ToNumber rdc) de then Ok (rdels, rrows)
      else
        r <- detect keyDepth ds de (S kt) ts' ;;
        Ok ((rdels ++ fst r)%list, (rrows ++ snd r)%list)
  end.

(** The final [map] of [groupByDepthStartEnd] over the ranges, with the
    pool [ts] it depletes.  The array of the ranges is given by its
    [objects] and, position by position, by the object each position
    holds ([places]): the callback writes the sample list to the object
    of the position, so an object at two positions is written twice and
    keeps the list written last. *)
Fixpoint groupRanges (keyDepth keyDepthStart keyDepthEnd : string) (places : list nat)
    (objects ts : list jsval) : result (list jsval) :=
  match places with
  | [] => Ok objects
  | p :: places' =>
      let v := nth p objects JUndefined in
      let ds := get v keyDepthStart JNull in
      let de := get v keyDepthEnd JNull in
      let ds := cdbl ds in
      let de := cdbl de in
      r <- detect keyDepth ds de 0 ts ;;
      v <- setProp v "rows" (cloneDeep (JArr (snd r))) ;;
      let objects := update p v objects in
      let ts := pullAt ts (fst r) in
      groupRanges keyDepth keyDepthStart keyDepthEnd places' objects ts
  end.

(** The same loop when every position holds an object of its own: the
    objects are the entries [rs], and the groups are the entries as
    written. *)
Fixpoint groupRangesOwn (keyDepth keyDepthStart keyDepthEnd : string) (rs ts : list jsval)
    : result (list jsval) :=
  match rs with
  | [] => Ok []
  | v :: rs' =>
      let ds := get v keyDepthStart JNull in
      let de := get v keyDepthEnd JNull in
      let ds := cdbl ds in
      let de := cdbl de in
      r <- detect keyDepth ds de 0 ts ;;
      v <- setProp v "rows" (cloneDeep (JArr (snd r))) ;;
      let ts := pullAt ts (fst r) in
      vs <- groupRangesOwn keyDepth keyDepthStart keyDepthEnd rs' ts ;;
      Ok (v :: vs)
  end.

(** [groupByDepthStartEnd] after its two guards, on target ranges given
    by their objects and places. *)
Definition groupChecked (rows : jsval) (objects : list jsval) (places : list nat) (opt : jsval)
    : result jsval :=
  let keyDepth := optKey opt "keyDepth" "depth" in
  let keyDepthStart := optKey opt "keyDepthStart" "depthStart" in
  let keyDepthEnd := optKey opt "keyDepthEnd" "depthEnd" in
  let rows := cloneDeep rows in
  let errs := depthErrs keyDepth (elements rows) in
  if (0 <? List.length errs)%nat then Throw (Error (Joined "; " errs))
  else
    rows <- sortBy (elements rows) (fun v => x <- member v keyDepth ;; Ok (cdbl x)) ;;
    let ckd := checkDepth rows keyDepth in
    if (0 <? List.length ckd)%nat then Throw (Error (Joined ", " ckd))
    else
      let depthStartAndEnds := entries objects places in
      let errs := (errs ++ rangeNumberErrs keyDepthStart keyDepthEnd depthStartAndEnds)%list in
      if (0 <? List.length errs)%nat then Throw (Error (Joined "; " errs))
      else
        let errs := (errs ++ rangeOrderErrs keyDepthStart keyDepthEnd depthStartAndEnds)%list in
        if (0 <? List.length errs)%nat then Throw (Error (Joined "; " errs))
        else
          let ts := elements (cloneDeep (JArr rows)) in
          let objects := map cloneDeep objects in
          objects <- groupRanges keyDepth keyDepthStart keyDepthEnd places objects ts ;;
          Ok (JArr (entries objects places)).


(** [groupByDepthStartEnd] on target ranges given as a value: a single
    range, or an array every position of which holds an object of its
    own. *)
Definition groupByDepthStartEnd (rows depthStartAndEnds opt : jsval) : result jsval :=
  if negb (isearr rows) then Throw (Error NoValidData)
  else if negb (isearr depthStartAndEnds) && negb (iseobj depthStartAndEnds)
  then Throw (Error NoValidRanges)
  else
    let depthStartAndEnds :=
      if iseobj depthStartAndEnds then [depthStartAndEnds] else elements depthStartAndEnds in
    groupChecked rows depthStartAndEnds (seq 0 (List.length depthStartAndEnds)) opt.

(** The depth of a sample lies in a range, both ends included. *)
Definition depthIn (keyDepth keyDepthStart keyDepthEnd : string) (r v : jsval) : bool :=
  num_ge (cdbl (get v keyDepth JNull)) (cdbl (get r keyDepthStart JNull)) &&
  num_le (cdbl (get v keyDepth JNull)) (cdbl (get r keyDepthEnd JNull)).

(** The grouping in the words of the specification: every range, in the
    given order, claims the samples of the pool that lie in it, and the
    pool goes on without them. *)
Fixpoint claimed (p : jsval -> jsval -> bool) (rs ts : list jsval) : list (list jsval) :=
  match rs with
  | [] => []
  | r :: rs' => filter (p r) ts :: claimed p rs' (filter (fun t => negb (p r t)) ts)
  end.

(** The sample list of a group. *)
Definition rowsOf (g : jsval) : list jsval := elements (get g "rows" JUndefined).

(** The target ranges as a list: a single range is a list of one. *)
Definition rangesOf (depthStartAndEnds : jsval) : list jsval :=
  if iseobj depthStartAndEnds then [depthStartAndEnds] else elements depthStartAndEnds.

End Functions.


(** * Properties *)

(** ** Order of floats

    The comparisons of [PrimFloat] are read through the keys [k1], [k2]
    and [k3], which turns order facts on floats into linear arithmetic. *)

Lemma SFcompare_key (a b : spec_float) :
  a <> S754_nan -> b <> S754_nan ->
  match SFcompare a b with
  | Some Lt => (SFk1 a < SFk1 b \/ (SFk1 a = SFk1 b /\
                 (SFk2 a < SFk2 b \/ (SFk2 a = SFk2 b /\ SFk3 a < SFk3 b))))%Z
  | Some Eq => (SFk1 a = SFk1 b /\ SFk2 a = SFk2 b /\ SFk3 a = SFk3 b)%Z
  | Some Gt => (SFk1 b < SFk1 a \/ (SFk1 b = SFk1 a /\
                 (SFk2 b < SFk2 a \/ (SFk2 b = SFk2 a /\ SFk3 b < SFk3 a))))%Z
  | None => False
  end.
Proof.
  intros Ha Hb.
  destruct a as [sa|sa| |sa ma ea], b as [sb|sb| |sb mb eb];
    try congruence; simpl;
    try (destruct sa); try (destruct sb); simpl; try lia.
  - destruct (Z.compare_spec ea eb); simpl; try lia.
    change (Pos.compare_cont Eq ma mb) with (Pos.compare ma mb).
    destruct (Pos.compare_spec ma mb); simpl; lia.
  - destruct (Z.compare_spec ea eb); simpl; try lia.
    change (Pos.compare_cont Eq ma mb) with (Pos.compare ma mb).
    destruct (Pos.compare_spec ma mb); simpl; lia.
Qed.

Lemma SFcompare_nan_l (b : spec_float) : SFcompare S754_nan b = None.
Proof. reflexivity. Qed.

Lemma SFcompare_nan_r (a : spec_float) : SFcompare a S754_nan = None.
Proof. destruct a; reflexivity. Qed.

Lemma ltb_true_iff (a b : float) :
  PrimFloat.ltb a b = true <-> not_nan a /\ not_nan b /\ klt a b.
Proof.
  rewrite ltb_spec. unfold SFltb, not_nan, klt, k1, k2, k3.
  destruct (Prim2SF a) eqn:Ea; destruct (Prim2SF b) eqn:Eb;
    try (rewrite ?SFcompare_nan_l, ?SFcompare_nan_r; split; [discriminate | intros (? & ? & _); congruence]);
    match goal with
    | |- context [SFcompare ?x ?y] =>
        let H := fresh in
        assert (H := SFcompare_key x y ltac:(discriminate) ltac:(discriminate));
        destruct (SFcompare x y) as [[]|]; try contradiction;
        (split; [ try discriminate; intros _; repeat split; (discriminate || exact H)
                | intros (_ & _ & ?); try reflexivity; exfalso; lia ])
    end.
Qed.

Lemma leb_true_iff (a b : float) :
  PrimFloat.leb a b = true <-> not_nan a /\ not_nan b /\ (klt a b \/ keq a b).
Proof.
  rewrite leb_spec. unfold SFleb, not_nan, klt, keq, k1, k2, k3.
  destruct (Prim2SF a) eqn:Ea; destruct (Prim2SF b) eqn:Eb;
    try (rewrite ?SFcompare_nan_l, ?SFcompare_nan_r; split; [discriminate | intros (? & ? & _); congruence]);
    match goal with
    | |- context [SFcompare ?x ?y] =>
        let H := fresh in
        assert (H := SFcompare_key x y ltac:(discriminate) ltac:(discriminate));
        destruct (SFcompare x y) as [[]|]; try contradiction;
        (split; [ try discriminate; intros _; repeat split; try discriminate; tauto
                | intros (_ & _ & ?); try reflexivity; exfalso; lia ])
    end.
Qed.

Lemma eqb_true_iff (a b : float) :
  PrimFloat.eqb a b = true <-> not_nan a /\ not_nan b /\ keq a b.
Proof.
  rewrite FloatAxioms.eqb_spec. unfold SFeqb, not_nan, keq, k1, k2, k3.
  destruct (Prim2SF a) eqn:Ea; destruct (Prim2SF b) eqn:Eb;
    try (rewrite ?SFcompare_nan_l, ?SFcompare_nan_r; split; [discriminate | intros (? & ? & _); congruence]);
    match goal with
    | |- context [SFcompare ?x ?y] =>
        let H := fresh in
        assert (H := SFcompare_key x y ltac:(discriminate) ltac:(discriminate));
        destruct (SFcompare x y) as [[]|]; try contradiction;
        (split; [ try discriminate; intros _; repeat split; try discriminate; tauto
                | intros (_ & _ & ?); try reflexivity; exfalso; lia ])
    end.
Qed.

Lemma is_nan_false_iff (a : float) : PrimFloat.is_nan a = false <-> not_nan a.
Proof.
  unfold PrimFloat.is_nan. rewrite negb_false_iff, eqb_true_iff.
  unfold keq. intuition lia.
Qed.

Ltac float_keys :=
  repeat match goal with
  | H : PrimFloat.ltb _ _ = true |- _ => apply ltb_true_iff in H; destruct H as (? & ? & ?)
  | H : PrimFloat.leb _ _ = true |- _ => apply leb_true_iff in H; destruct H as (? & ? & ?)
  | H : PrimFloat.eqb _ _ = true |- _ => apply eqb_true_iff in H; destruct H as (? & ? & ?)
  | H : PrimFloat.is_nan _ = false |- _ => apply is_nan_false_iff in H
  | H : PrimFloat.ltb ?a ?b = false |- _ =>
      assert (~ (not_nan a /\ not_nan b /\ klt a b))
        by (rewrite <- ltb_true_iff, H; discriminate); clear H
  | H : PrimFloat.leb ?a ?b = false |- _ =>
      assert (~ (not_nan a /\ not_nan b /\ (klt a b \/ keq a b)))
        by (rewrite <- leb_true_iff, H; discriminate); clear H
  | H : PrimFloat.eqb ?a ?b = false |- _ =>
      assert (~ (not_nan a /\ not_nan b /\ keq a b))
        by (rewrite <- eqb_true_iff, H; discriminate); clear H
  end.

Ltac float_order :=
  unfold num_gt, num_ge, num_le, num_strict_ne in *;
  float_keys;
  match goal with
  | |- PrimFloat.ltb _ _ = true => apply ltb_true_iff
  | |- PrimFloat.leb _ _ = true => apply leb_true_iff
  | |- PrimFloat.eqb _ _ = true => apply eqb_true_iff
  | |- PrimFloat.ltb _ _ = false => apply not_true_is_false; intros ?H; float_keys
  | |- PrimFloat.leb _ _ = false => apply not_true_is_false; intros ?H; float_keys
  | |- PrimFloat.eqb _ _ = false => apply not_true_is_false; intros ?H; float_keys
  | |- _ => idtac
  end;
  unfold klt, keq in *; intuition lia.

Lemma ltb_trans (a b c : float) :
  PrimFloat.ltb a b = true -> PrimFloat.ltb b c = true -> PrimFloat.ltb a c = true.
Proof. intros. float_order. Qed.

Lemma ltb_irrefl (a : float) : PrimFloat.ltb a a = false.
Proof. float_order. Qed.

Lemma not_ge_lt (a b : float) :
  PrimFloat.is_nan a = false -> PrimFloat.is_nan b = false ->
  num_ge a b = false -> PrimFloat.ltb a b = true.
Proof. intros. float_order. Qed.

Lemma not_gt_le (a b : float) :
  PrimFloat.is_nan a = false -> PrimFloat.is_nan b = false ->
  num_gt a b = false -> PrimFloat.leb a b = true.
Proof. intros. float_order. Qed.

Lemma le_not_gt (t de : float) :
  PrimFloat.leb t de = true -> PrimFloat.ltb de t = false.
Proof. intros. float_order. Qed.

Lemma gt_end_later (de t s : float) :
  PrimFloat.ltb de t = true -> PrimFloat.ltb t s = true -> PrimFloat.leb s de = false.
Proof. intros. float_order. Qed.

Lemma at_boundary_in_range (ds de d : float) :
  PrimFloat.is_nan ds = false -> PrimFloat.is_nan de = false ->
  num_gt ds de = false -> PrimFloat.eqb d de = true ->
  num_ge d ds && num_le d de = true.
Proof.
  intros. apply andb_true_iff. split; float_order.
Qed.

Lemma leb_trans (a b c : float) :
  PrimFloat.leb a b = true -> PrimFloat.leb b c = true -> PrimFloat.leb a c = true.
Proof. intros. float_order. Qed.

Lemma leb_ltb_trans (a b c : float) :
  PrimFloat.leb a b = true -> PrimFloat.ltb b c = true -> PrimFloat.ltb a c = true.
Proof. intros. float_order. Qed.

Lemma ltb_leb (a b : float) : PrimFloat.ltb a b = true -> PrimFloat.leb a b = true.
Proof. intros. float_order. Qed.

Lemma eqb_leb (a b : float) : PrimFloat.eqb a b = true -> PrimFloat.leb a b = true.
Proof. intros. float_order. Qed.

Lemma eqb_false_sym (a b : float) : PrimFloat.eqb a b = false -> PrimFloat.eqb b a = false.
Proof. intros. float_order. Qed.

Lemma ltb_not_eqb (a b : float) : PrimFloat.ltb a b = true -> PrimFloat.eqb a b = false.
Proof. intros. float_order. Qed.

Lemma ltb_asym (a b : float) : PrimFloat.ltb a b = true -> PrimFloat.ltb b a = true -> False.
Proof. intros. float_order. Qed.

Lemma leb_neq_ltb (a b : float) :
  PrimFloat.leb a b = true -> PrimFloat.eqb a b = false -> PrimFloat.ltb a b = true.
Proof. intros. float_order. Qed.

Lemma ltb_not_ge (a b : float) : PrimFloat.ltb a b = true -> num_ge a b = false.
Proof. intros. float_order. Qed.

Lemma ge_not_ltb (a b : float) : num_ge a b = true -> PrimFloat.ltb a b = false.
Proof. intros. float_order. Qed.

Lemma gt_end_later_leb (de t s : float) :
  PrimFloat.ltb de t = true -> PrimFloat.leb t s = true -> PrimFloat.leb s de = false.
Proof. intros. float_order. Qed.


(** ** Loops, lookups and updates *)

Lemma In_each_from (f : jsval -> nat -> list violation) (xs : list jsval) :
  forall k0 e,
    In e (each_from f k0 xs) <->
    exists i v, nth_error xs i = Some v /\ In e (f v (k0 + i)).
Proof.
  induction xs as [|x xs IH]; intros k0 e; simpl.
  - split; [contradiction | intros (i & v & H & _); destruct i; discriminate].
  - rewrite in_app_iff, IH. split.
    + intros [H | (i & v & Hn & Hi)].
      * exists 0, x. rewrite Nat.add_0_r. auto.
      * exists (S i), v. rewrite Nat.add_succ_r. auto.
    + intros (i & v & Hn & Hi). destruct i as [|i]; simpl in Hn.
      * injection Hn as <-. rewrite Nat.add_0_r in Hi. auto.
      * right. exists i, v. rewrite Nat.add_succ_r in Hi. auto.
Qed.

Lemma In_each (f : jsval -> nat -> list violation) (xs : list jsval) (e : violation) :
  In e (each xs f) <-> exists i v, nth_error xs i = Some v /\ In e (f v i).
Proof. unfold each. rewrite In_each_from. reflexivity. Qed.

Lemma each_nil (f : jsval -> nat -> list violation) (xs : list jsval) :
  each xs f = [] <-> forall i v, nth_error xs i = Some v -> f v i = [].
Proof.
  split.
  - intros H i v Hn. destruct (f v i) as [|e l] eqn:E; [reflexivity|].
    assert (Hin : In e (each xs f)) by (apply In_each; exists i, v; rewrite E; simpl; auto).
    rewrite H in Hin. contradiction.
  - intros H. destruct (each xs f) as [|e l] eqn:E; [reflexivity|].
    assert (Hin : In e (each xs f)) by (rewrite E; simpl; auto).
    apply In_each in Hin. destruct Hin as (i & v & Hn & Hi).
    rewrite (H i v Hn) in Hi. contradiction.
Qed.

Lemma length_zero_nil {A : Type} (l : list A) : (0 <? List.length l)%nat = false <-> l = [].
Proof.
  destruct l; simpl; split; intros; try reflexivity; discriminate.
Qed.

Lemma getAt_pred (xs : list jsval) (k : nat) :
  getAt xs (Z.of_nat (S k) - 1) = nth k xs JUndefined.
Proof.
  unfold getAt. replace (Z.of_nat (S k) - 1)%Z with (Z.of_nat k) by lia.
  destruct (Z.ltb_spec (Z.of_nat k) 0); [lia|]. now rewrite Nat2Z.id.
Qed.

Lemma getAt_succ (xs : list jsval) (k : nat) :
  getAt xs (Z.of_nat k + 1) = nth (S k) xs JUndefined.
Proof.
  unfold getAt. replace (Z.of_nat k + 1)%Z with (Z.of_nat (S k)) by lia.
  destruct (Z.ltb_spec (Z.of_nat (S k)) 0); [lia|]. now rewrite Nat2Z.id.
Qed.

Lemma getAt_minus_one (xs : list jsval) : getAt xs (Z.of_nat 0 - 1) = JUndefined.
Proof. reflexivity. Qed.

Lemma nth_error_nth_js (xs : list jsval) (k : nat) (v : jsval) :
  nth_error xs k = Some v -> nth k xs JUndefined = v.
Proof. intros H. now apply nth_error_nth. Qed.

Lemma lookup_assign_same (key : string) (x : jsval) (ps : list (string * jsval)) :
  lookup key (assign key x ps) = Some x.
Proof.
  induction ps as [|[k y] ps IH]; simpl.
  - now rewrite String.eqb_refl.
  - destruct (String.eqb k key) eqn:E; simpl; rewrite E; auto.
Qed.

Lemma lookup_assign_other (key key' : string) (x : jsval) (ps : list (string * jsval)) :
  key <> key' -> lookup key' (assign key x ps) = lookup key' ps.
Proof.
  intros Hne. induction ps as [|[k y] ps IH]; simpl.
  - destruct (String.eqb_spec key key'); [contradiction | reflexivity].
  - destruct (String.eqb_spec k key) as [->|Hk]; simpl.
    + destruct (String.eqb_spec key key'); [contradiction | reflexivity].
    + destruct (String.eqb k key'); auto.
Qed.

Lemma get_assign_other (key key' : string) (x d : jsval) (ps : list (string * jsval)) :
  key <> key' -> get (JObj (assign key x ps)) key' d = get (JObj ps) key' d.
Proof. intros H. unfold get. now rewrite lookup_assign_other. Qed.


Lemma get_assign_arr (key : string) (l : list jsval) (d : jsval) (ps : list (string * jsval)) :
  get (JObj (assign key (JArr l) ps)) key d = JArr l.
Proof. unfold get. now rewrite lookup_assign_same. Qed.

Lemma mapM_length {A B : Type} (f : A -> result B) (l : list A) (bs : list B) :
  mapM f l = Ok bs -> List.length bs = List.length l.
Proof.
  revert bs. induction l as [|a l IH]; simpl; intros bs H.
  - injection H as <-. reflexivity.
  - destruct (f a); simpl in H; [|discriminate].
    destruct (mapM f l); simpl in H; [|discriminate].
    injection H as <-. simpl. f_equal. now apply IH.
Qed.

Lemma mapM_ok {A B : Type} (f : A -> result B) (g : A -> B) (l : list A) :
  (forall a, In a l -> f a = Ok (g a)) -> mapM f l = Ok (map g l).
Proof.
  induction l as [|a l IH]; simpl; intros H; [reflexivity|].
  rewrite (H a) by auto. simpl. rewrite IH by auto. reflexivity.
Qed.



(** ** Paths *)

Lemma index_inj (i j : nat) : index i = index j -> i = j.
Proof.
  unfold index. intros H. apply Unsigned.to_uint_inj.
  assert (H' := f_equal NilEmpty.uint_of_string H).
  rewrite !NilEmpty.usu in H'. now injection H'.
Qed.

Lemma arrayAt_index (xs : list jsval) (i : nat) : arrayAt xs (index i) = nth i xs JUndefined.
Proof.
  unfold arrayAt.
  destruct (find _ _) as [j|] eqn:E.
  - apply find_some in E. destruct E as [_ E].
    apply String.eqb_eq, index_inj in E. now subst.
  - destruct (Nat.lt_ge_cases i (List.length xs)) as [Hi|Hi].
    + assert (Hin : In i (seq 0 (List.length xs))) by (apply in_seq; lia).
      assert (H := find_none _ _ E i Hin). cbv beta in H.
      rewrite String.eqb_refl in H. discriminate.
    + now rewrite nth_overflow.
Qed.

(** The path of an index and a name reads the field of the row at the
    index (the row being no array). *)
Lemma getIn_row (rows : list jsval) (i : nat) (key : string) :
  (forall l, nth i rows JUndefined <> JArr l) ->
  getIn (JArr rows) [index i; key] JNull = get (nth i rows JUndefined) key JNull.
Proof.
  intros Hr. unfold getIn. cbn [baseGet prop]. rewrite arrayAt_index.
  destruct (nth i rows JUndefined) as [| | | | |l|ps]; try reflexivity.
  - now destruct (Hr l).
  - cbn [prop get]. destruct (lookup key ps) as [[]|]; reflexivity.
Qed.
Lemma StronglySorted_nth {A : Type} (R : A -> A -> Prop) (l : list A) (d : A) :
  StronglySorted R l ->
  forall i j, (i < j)%nat -> (j < List.length l)%nat -> R (nth i l d) (nth j l d).
Proof.
  induction 1 as [|a l Hs IH Ha]; intros i j Hij Hj; simpl in Hj; [lia|].
  destruct j as [|j]; [lia|]. destruct i as [|i]; simpl.
  - rewrite Forall_forall in Ha. apply Ha. apply nth_In. lia.
  - apply IH; lia.
Qed.

Lemma assign_same (key : string) (x : jsval) (ps : list (string * jsval)) :
  lookup key ps = Some x -> assign key x ps = ps.
Proof.
  induction ps as [|[k y] ps IH]; simpl; [discriminate|].
  destruct (String.eqb k key) eqn:E.
  - intros H. injection H as ->. reflexivity.
  - intros H. now rewrite IH.
Qed.

Lemma StronglySorted_map {A B : Type} (f : A -> B) (R : B -> B -> Prop) (l : list A) :
  StronglySorted (fun a b => R (f a) (f b)) l <-> StronglySorted R (map f l).
Proof.
  induction l as [|a l IH]; simpl.
  - split; constructor.
  - split; intros H; inversion H as [|? ? Hs Ha]; subst; constructor;
      try (now apply IH).
    + rewrite Forall_forall in *. intros y Hy. apply in_map_iff in Hy.
      destruct Hy as (z & <- & Hz). now apply Ha.
    + rewrite Forall_forall in *. intros z Hz. apply Ha. now apply in_map.
Qed.

(** *** Arrays updated at an index *)

Lemma length_update (k : nat) (v : jsval) (xs : list jsval) :
  List.length (update k v xs) = List.length xs.
Proof.
  revert k. induction xs as [|x xs IH]; intros [|k]; simpl; auto.
Qed.

Lemma nth_update_same (k : nat) (v : jsval) (xs : list jsval) :
  (k < List.length xs)%nat -> nth k (update k v xs) JUndefined = v.
Proof.
  revert k. induction xs as [|x xs IH]; intros [|k] H; simpl in *; try lia; auto.
  apply IH. lia.
Qed.

Lemma nth_update_other (k j : nat) (v : jsval) (xs : list jsval) :
  j <> k -> nth j (update k v xs) JUndefined = nth j xs JUndefined.
Proof.
  revert k j. induction xs as [|x xs IH]; intros [|k] [|j] H; simpl; auto; try congruence.
Qed.

Lemma map_update (f : jsval -> jsval) (k : nat) (v : jsval) (xs : list jsval) :
  f v = f (nth k xs JUndefined) -> map f (update k v xs) = map f xs.
Proof.
  revert k. induction xs as [|x xs IH]; intros [|k] H; simpl in *; auto.
  - now rewrite H.
  - now rewrite IH.
Qed.

Lemma nth_update (k i : nat) (v : jsval) (xs : list jsval) :
  nth i (update k v xs) JUndefined =
  if (i =? k)%nat && (k <? List.length xs)%nat then v else nth i xs JUndefined.
Proof.
  revert k i. induction xs as [|x xs IH]; intros k i.
  - destruct k, i; simpl; try reflexivity. now rewrite andb_false_r.
  - destruct k as [|k], i as [|i]; simpl; try reflexivity. now rewrite IH.
Qed.

Lemma update_length (k : nat) (v : jsval) (xs : list jsval) :
  List.length (update k v xs) = List.length xs.
Proof.
  apply length_update.
Qed.

(** *** The entries of an array of objects *)

Lemma entries_length (objects : list jsval) (places : list nat) :
  List.length (entries objects places) = List.length places.
Proof.
  unfold entries. apply length_map.
Qed.

Lemma nth_entries (objects : list jsval) (places : list nat) (j : nat) :
  (j < List.length places)%nat ->
  nth j (entries objects places) JUndefined = nth (nth j places 0%nat) objects JUndefined.
Proof.
  intros Hj. unfold entries.
  rewrite (nth_indep _ JUndefined ((fun p => nth p objects JUndefined) 0%nat))
    by (rewrite length_map; exact Hj).
  apply (map_nth (fun p => nth p objects JUndefined)).
Qed.

Lemma entries_seq (objects : list jsval) :
  entries objects (seq 0 (List.length objects)) = objects.
Proof.
  apply (nth_ext _ _ JUndefined JUndefined).
  - now rewrite entries_length, length_seq.
  - intros j Hj. rewrite entries_length, length_seq in Hj.
    rewrite nth_entries by (now rewrite length_seq). now rewrite seq_nth.
Qed.


(** ** Sorting *)

Lemma insertSorted_perm (x : float * nat * jsval) (l : list (float * nat * jsval)) :
  Permutation (insertSorted x l) (x :: l).
Proof.
  induction l as [|y l IH]; simpl; [reflexivity|].
  destruct (compareMultiple x y <=? 0)%Z; [reflexivity|].
  rewrite IH. apply perm_swap.
Qed.

Lemma baseSortBy_perm (l : list (float * nat * jsval)) : Permutation (baseSortBy l) l.
Proof.
  induction l as [|x l IH]; simpl; [reflexivity|].
  rewrite insertSorted_perm. now constructor.
Qed.

Lemma map_snd_combine {A B : Type} (l : list A) (xs : list B) :
  List.length l = List.length xs -> map snd (combine l xs) = xs.
Proof.
  revert xs. induction l as [|a l IH]; intros [|x xs] H; simpl in *; try discriminate; try reflexivity.
  f_equal. apply IH. lia.
Qed.

Lemma sortBy_perm (xs : list jsval) (iteratee : jsval -> result float) (srt : list jsval) :
  sortBy xs iteratee = Ok srt -> Permutation srt xs.
Proof.
  unfold sortBy. destruct (mapM iteratee xs) as [cs|] eqn:E; simpl; [|discriminate].
  intros H. injection H as <-.
  rewrite baseSortBy_perm. rewrite map_snd_combine; [reflexivity|].
  rewrite length_combine, length_seq, (mapM_length _ _ _ E). lia.
Qed.

Lemma sortBy_total (xs : list jsval) (iteratee : jsval -> result float) :
  (forall v, In v xs -> exists c, iteratee v = Ok c) ->
  exists srt, sortBy xs iteratee = Ok srt.
Proof.
  intros H. unfold sortBy.
  assert (Hm : exists cs, mapM iteratee xs = Ok cs).
  { induction xs as [|x xs IH]; simpl; [eauto|].
    destruct (H x) as [c Hc]; [simpl; auto|]. rewrite Hc. simpl.
    destruct IH as [cs Hcs]; [intros; apply H; simpl; auto|].
    rewrite Hcs. simpl. eauto. }
  destruct Hm as [cs ->]. simpl. eauto.
Qed.


Lemma compareMultiple_le (x y : float * nat * jsval) :
  PrimFloat.is_nan (fst (fst x)) = false -> PrimFloat.is_nan (fst (fst y)) = false ->
  (compareMultiple x y <=? 0)%Z = true ->
  PrimFloat.leb (fst (fst x)) (fst (fst y)) = true.
Proof.
  intros Hx Hy. unfold compareMultiple, compareAscending.
  rewrite Hx, Hy, !orb_false_r.
  destruct (PrimFloat.eqb (fst (fst x)) (fst (fst y))) eqn:Ee; cbn [negb].
  - intros _. now apply eqb_leb.
  - destruct (PrimFloat.ltb (fst (fst y)) (fst (fst x))) eqn:E1; [discriminate|].
    destruct (PrimFloat.ltb (fst (fst x)) (fst (fst y))) eqn:E2.
    + intros _. now apply ltb_leb.
    + intros _. float_order.
Qed.

Lemma compareMultiple_gt (x y : float * nat * jsval) :
  PrimFloat.is_nan (fst (fst x)) = false -> PrimFloat.is_nan (fst (fst y)) = false ->
  (compareMultiple x y <=? 0)%Z = false ->
  PrimFloat.leb (fst (fst y)) (fst (fst x)) = true.
Proof.
  intros Hx Hy. unfold compareMultiple, compareAscending.
  rewrite Hx, Hy, !orb_false_r.
  destruct (PrimFloat.eqb (fst (fst x)) (fst (fst y))) eqn:Ee; cbn [negb].
  - intros _. float_order.
  - destruct (PrimFloat.ltb (fst (fst y)) (fst (fst x))) eqn:E1.
    + intros _. now apply ltb_leb.
    + destruct (PrimFloat.ltb (fst (fst x)) (fst (fst y))) eqn:E2; [discriminate|].
      intros _. float_order.
Qed.

Lemma insertSorted_sorted (x : float * nat * jsval) (l : list (float * nat * jsval)) :
  PrimFloat.is_nan (fst (fst x)) = false ->
  Forall (fun e => PrimFloat.is_nan (fst (fst e)) = false) l ->
  StronglySorted (fun a b => PrimFloat.leb (fst (fst a)) (fst (fst b)) = true) l ->
  StronglySorted (fun a b => PrimFloat.leb (fst (fst a)) (fst (fst b)) = true) (insertSorted x l).
Proof.
  intros Hx Hn Hs. induction Hs as [|y l Hs IH Hy]; simpl.
  - repeat constructor.
  - inversion Hn as [|? ? Hny Hn']; subst.
    destruct (compareMultiple x y <=? 0)%Z eqn:E.
    + assert (Hxy := compareMultiple_le x y Hx Hny E).
      constructor; [now constructor|]. constructor; [exact Hxy|].
      eapply Forall_impl; [|exact Hy]. intros e He. cbv beta in *.
      eapply leb_trans; eassumption.
    + assert (Hyx := compareMultiple_gt x y Hx Hny E).
      constructor; [now apply IH|].
      apply Forall_forall. intros e He.
      apply (Permutation_in _ (insertSorted_perm x l)) in He. destruct He as [<-|He].
      * exact Hyx.
      * rewrite Forall_forall in Hy. now apply Hy.
Qed.

Lemma baseSortBy_sorted (l : list (float * nat * jsval)) :
  Forall (fun e => PrimFloat.is_nan (fst (fst e)) = false) l ->
  StronglySorted (fun a b => PrimFloat.leb (fst (fst a)) (fst (fst b)) = true) (baseSortBy l).
Proof.
  induction 1 as [|x l Hx Hl IH]; simpl; [constructor|].
  apply insertSorted_sorted; [exact Hx| |exact IH].
  apply Forall_forall. intros e He.
  apply (Permutation_in _ (baseSortBy_perm l)) in He.
  rewrite Forall_forall in Hl. now apply Hl.
Qed.

Lemma combine_keyed {A : Type} (f : jsval -> A) (xs : list jsval) (idx : list nat) :
  Forall (fun e : A * nat * jsval => fst (fst e) = f (snd e))
         (combine (combine (map f xs) idx) xs).
Proof.
  revert idx. induction xs as [|x xs IH]; intros idx; simpl; [constructor|].
  destruct idx as [|i idx]; simpl; [constructor|].
  constructor; [reflexivity | apply IH].
Qed.

(** With a criterion that does not throw and is never NaN, the result of
    [sortBy] is in ascending order of the criterion. *)
Lemma sortBy_sorted (xs : list jsval) (iteratee : jsval -> result float) (f : jsval -> float)
    (srt : list jsval) :
  (forall v, In v xs -> iteratee v = Ok (f v)) ->
  (forall v, In v xs -> PrimFloat.is_nan (f v) = false) ->
  sortBy xs iteratee = Ok srt ->
  StronglySorted (fun a b => PrimFloat.leb (f a) (f b) = true) srt.
Proof.
  intros Hit Hn. unfold sortBy. rewrite (mapM_ok iteratee f xs Hit). cbn [bind].
  intros H. injection H as <-.
  set (es := combine (combine (map f xs) (seq 0 (List.length xs))) xs).
  assert (Hk : Forall (fun e : float * nat * jsval => fst (fst e) = f (snd e)) es)
    by apply combine_keyed.
  assert (Hin : forall e, In e es -> In (snd e) xs).
  { intros [[c i] v] He. apply in_combine_r in He. exact He. }
  assert (Hnan : Forall (fun e : float * nat * jsval => PrimFloat.is_nan (fst (fst e)) = false) es).
  { apply Forall_forall. intros e He. rewrite Forall_forall in Hk. rewrite (Hk e He).
    apply Hn. now apply Hin. }
  assert (Hs := baseSortBy_sorted es Hnan).
  assert (Hk' : Forall (fun e : float * nat * jsval => fst (fst e) = f (snd e)) (baseSortBy es)).
  { apply Forall_forall. intros e He. rewrite Forall_forall in Hk. apply Hk.
    now apply (Permutation_in _ (baseSortBy_perm es)). }
  revert Hs Hk'. generalize (baseSortBy es). clear. intros l Hs.
  induction Hs as [|e l Hs IH He]; intros Hk; simpl; constructor.
  - apply IH. now inversion Hk.
  - inversion Hk as [|? ? Hke Hkl]; subst.
    apply Forall_forall. intros v Hv. apply in_map_iff in Hv. destruct Hv as (e' & <- & He').
    rewrite Forall_forall in He, Hkl. rewrite <- Hke, <- (Hkl e' He'). now apply He.
Qed.

(** Two lists in strict order that are permutations of each other are
    the same list. *)
Lemma strictly_sorted_unique {A : Type} (R : A -> A -> Prop) (l1 : list A) :
  (forall a b, R a b -> R b a -> False) ->
  forall l2, StronglySorted R l1 -> StronglySorted R l2 -> Permutation l1 l2 -> l1 = l2.
Proof.
  intros Hasym. induction l1 as [|a l1 IH]; intros l2 H1 H2 Hp.
  - apply Permutation_nil in Hp. now subst.
  - destruct l2 as [|b l2]; [apply Permutation_sym, Permutation_nil in Hp; discriminate|].
    inversion H1 as [|? ? H1' Ha]; subst. inversion H2 as [|? ? H2' Hb]; subst.
    rewrite Forall_forall in Ha, Hb.
    assert (Hab : a = b).
    { assert (Hina : In a (b :: l2)) by (apply (Permutation_in _ Hp); now left).
      assert (Hinb : In b (a :: l1)) by (apply (Permutation_in _ (Permutation_sym Hp)); now left).
      destruct Hina as [->|Hina]; [reflexivity|]. destruct Hinb as [->|Hinb]; [reflexivity|].
      exfalso. exact (Hasym a b (Ha b Hinb) (Hb a Hina)). }
    subst b. f_equal. apply IH; try assumption. now apply Permutation_cons_inv with a.
Qed.

Lemma ForallOrdPairs_perm {A : Type} (R : A -> A -> Prop) (l l' : list A) :
  (forall a b, R a b -> R b a) ->
  Permutation l l' -> ForallOrdPairs R l -> ForallOrdPairs R l'.
Proof.
  intros Hsym. induction 1 as [|x l l' Hp IH|x y l|l l' l'' _ IH1 _ IH2]; intros H.
  - exact H.
  - inversion H; subst. constructor; [|now apply IH].
    eapply Permutation_Forall; eassumption.
  - inversion H as [|? ? Hy H']; subst. inversion H' as [|? ? Hx H'']; subst.
    inversion Hy; subst. constructor; [constructor; [now apply Hsym | assumption]|].
    constructor; assumption.
  - auto.
Qed.

Lemma StronglySorted_pairs {A : Type} (R Q : A -> A -> Prop) (l : list A) :
  (forall a b, R a b -> Q a b) -> StronglySorted R l -> ForallOrdPairs Q l.
Proof.
  intros Himp. induction 1 as [|a l Hs IH Ha]; constructor; [|exact IH].
  eapply Forall_impl; [|exact Ha]. auto.
Qed.

Lemma pairs_StronglySorted {A : Type} (R Q S : A -> A -> Prop) (l : list A) :
  (forall a b, R a b -> Q a b -> S a b) ->
  StronglySorted R l -> ForallOrdPairs Q l -> StronglySorted S l.
Proof.
  intros Himp. induction 1 as [|a l Hs IH Ha]; intros Hq; constructor.
  - apply IH. now inversion Hq.
  - inversion Hq as [|? ? Hqa _]; subst. rewrite Forall_forall in *. auto.
Qed.







(** ** Pools and claims *)


Lemma claimed_length (p : jsval -> jsval -> bool) (rs : list jsval) :
  forall ts, List.length (claimed p rs ts) = List.length rs.
Proof.
  induction rs as [|r rs IH]; intros ts; simpl; auto.
Qed.




Lemma claimed_incl (p : jsval -> jsval -> bool) (rs : list jsval) :
  forall ts v, In v (List.concat (claimed p rs ts)) -> In v ts.
Proof.
  induction rs as [|r rs IH]; intros ts v Hin; simpl in Hin; [contradiction|].
  apply in_app_or in Hin. destruct Hin as [Hin|Hin].
  - apply filter_In in Hin. tauto.
  - apply IH in Hin. apply filter_In in Hin. tauto.
Qed.

Lemma claimed_NoDup (p : jsval -> jsval -> bool) (rs : list jsval) :
  forall ts, NoDup ts -> NoDup (List.concat (claimed p rs ts)).
Proof.
  induction rs as [|r rs IH]; intros ts Hnd; simpl; [constructor|].
  apply NoDup_app.
  - now apply NoDup_filter.
  - apply IH. now apply NoDup_filter.
  - intros v Hin Hin'. apply claimed_incl in Hin'.
    apply filter_In in Hin. apply filter_In in Hin'.
    destruct Hin as [_ H1]. destruct Hin' as [_ H2]. rewrite H1 in H2. discriminate.
Qed.

Lemma NoDup_concat_nth {A : Type} (ls : list (list A)) :
  NoDup (List.concat ls) ->
  forall i j x, In x (nth i ls []) -> In x (nth j ls []) -> i = j.
Proof.
  induction ls as [|l ls IH]; intros Hnd i j x Hi Hj.
  - destruct i; contradiction.
  - simpl in Hnd. apply NoDup_app_remove_l in Hnd as Hnd'.
    assert (Hdisj : forall k y, In y l -> In y (nth k ls []) -> False).
    { intros k y Hy Hk.
      assert (Hc : In y (List.concat ls)).
      { apply in_concat. exists (nth k ls []). split; [|assumption].
        destruct (Nat.lt_ge_cases k (List.length ls)); [now apply nth_In|].
        rewrite nth_overflow in Hk by assumption. contradiction. }
      revert Hnd Hy Hc. clear. induction l as [|a l IHl]; simpl; intros Hnd Hy Hc; [contradiction|].
      inversion Hnd; subst. destruct Hy as [<-|Hy].
      - apply H1. apply in_or_app. now right.
      - now apply IHl. }
    destruct i as [|i], j as [|j]; simpl in *; auto.
    + exfalso. eapply Hdisj; eauto.
    + exfalso. eapply Hdisj; eauto.
    + f_equal. eapply IH; eauto.
Qed.

Lemma pullAt_from_none (ts : list jsval) : forall k, pullAt_from k ts [] = ts.
Proof. induction ts as [|t ts IH]; intros k; simpl; [reflexivity | now rewrite IH]. Qed.

Lemma pullAt_from_passed (ts : list jsval) (idxs : list nat) :
  forall k i, (i < k)%nat -> pullAt_from k ts (i :: idxs) = pullAt_from k ts idxs.
Proof.
  induction ts as [|t ts IH]; intros k i Hi; simpl; [reflexivity|].
  replace (k =? i)%nat with false by (symmetry; apply Nat.eqb_neq; lia).
  simpl. rewrite !IH by lia. reflexivity.
Qed.

Lemma existsb_eqb_ahead (k : nat) (idxs : list nat) :
  Forall (fun i => (S k <= i)%nat) idxs -> existsb (Nat.eqb k) idxs = false.
Proof.
  induction 1 as [|i idxs Hi _ IH]; simpl; [reflexivity|].
  rewrite IH. replace (k =? i)%nat with false by (symmetry; apply Nat.eqb_neq; lia). reflexivity.
Qed.

Lemma adjacent_Sorted {A : Type} (R : A -> A -> Prop) (l : list A) :
  (forall j a b, nth_error l j = Some a -> nth_error l (S j) = Some b -> R a b) ->
  Sorted R l.
Proof.
  induction l as [|a l IH]; intros H; constructor.
  - apply IH. intros j x y Hx Hy. apply (H (S j)); assumption.
  - destruct l as [|b l]; constructor. apply (H 0%nat); reflexivity.
Qed.

Lemma StronglySorted_filter {A : Type} (R : A -> A -> Prop) (f : A -> bool) (l : list A) :
  StronglySorted R l -> StronglySorted R (filter f l).
Proof.
  induction 1 as [|a l Hs IH Hf]; simpl; [constructor|].
  destruct (f a); [|assumption]. constructor; [assumption|].
  apply Forall_forall. intros x Hx. apply filter_In in Hx.
  rewrite Forall_forall in Hf. apply Hf. tauto.
Qed.

Lemma filter_none {A : Type} (f : A -> bool) (l : list A) :
  (forall x, In x l -> f x = false) ->
  filter f l = [] /\ filter (fun x => negb (f x)) l = l.
Proof.
  induction l as [|a l IH]; intros H; simpl; [auto|].
  rewrite (H a) by (simpl; auto). simpl.
  destruct IH as [-> ->]; [intros; apply H; simpl; auto|]. auto.
Qed.


Lemma StronglySorted_NoDup {A : Type} (R : A -> A -> Prop) (l : list A) :
  (forall a, ~ R a a) -> StronglySorted R l -> NoDup l.
Proof.
  intros Hirr. induction 1 as [|a l Hs IH Hf]; constructor; [|assumption].
  intros Hin. rewrite Forall_forall in Hf. exact (Hirr a (Hf a Hin)).
Qed.

Lemma nth_map_rowsOf (groups : list jsval) (j : nat) :
  nth j (map rowsOf groups) [] = rowsOf (nth j groups JUndefined).
Proof. exact (map_nth rowsOf groups JUndefined j). Qed.




Lemma claimed_sorted (R : jsval -> jsval -> Prop) (p : jsval -> jsval -> bool) (rs : list jsval) :
  forall ts j, StronglySorted R ts -> StronglySorted R (nth j (claimed p rs ts) []).
Proof.
  induction rs as [|r rs IH]; intros ts j Hs; simpl.
  - destruct j; constructor.
  - destruct j as [|j]; [now apply StronglySorted_filter|].
    apply IH. now apply StronglySorted_filter.
Qed.


(** ** Fields that are numbers *)

Section NumberFields.

Context {C : Collaborators}.

(** What is assumed of the collaborators: null is no number. *)
Hypothesis isnum_null : isnum JNull = false.

Variable key : string.

Lemma member_valid (v : jsval) :
  isnum (get v key JNull) = true -> member v key = Ok (get v key JNull).
Proof.
  intros H. destruct v; simpl in *; try (rewrite isnum_null in H; discriminate).
  destruct (lookup key ps) as [[]|]; simpl in *; try reflexivity;
    rewrite isnum_null in H; discriminate.
Qed.

(** A value with a numeric field is an object, and not an empty one. *)
Lemma valid_has_entries (v : jsval) :
  isnum (get v key JNull) = true -> exists p ps, v = JObj (p :: ps).
Proof.
  destruct v as [| | | | | |[|p ps]]; simpl; intros H;
    try (rewrite isnum_null in H; discriminate).
  eauto.
Qed.

Lemma valid_is_object (v : jsval) :
  isnum (get v key JNull) = true -> exists ps, v = JObj ps.
Proof.
  intros H. destruct (valid_has_entries v H) as (p & ps & ->). eauto.
Qed.

End NumberFields.

(** ** Rows sorted by a numeric field *)

Section SortedRows.

Context {C : Collaborators}.

Hypothesis isnum_null : isnum JNull = false.
Hypothesis cdbl_not_nan : forall v, isnum v = true -> PrimFloat.is_nan (cdbl v) = false.

Variable key : string.

Local Abbreviation upto :=
  (fun a b => PrimFloat.leb (cdbl (get a key JNull)) (cdbl (get b key JNull)) = true).
Local Abbreviation before :=
  (fun a b => PrimFloat.ltb (cdbl (get a key JNull)) (cdbl (get b key JNull)) = true).

(** The criterion of the sort on a row whose field is a number. *)
Lemma criterion_of_number (v : jsval) :
  isnum (get v key JNull) = true ->
  (x <- member v key ;; Ok (cdbl x)) = Ok (cdbl (get v key JNull)).
Proof. intros H. now rewrite (member_valid isnum_null key v H). Qed.

(** The sorted rows are in ascending order of the field. *)
Lemma sortBy_ascending (xs srt : list jsval) :
  (forall v, In v xs -> isnum (get v key JNull) = true) ->
  sortBy xs (fun v => x <- member v key ;; Ok (cdbl x)) = Ok srt ->
  StronglySorted upto srt.
Proof.
  intros Hnum Hsort.
  apply (sortBy_sorted xs (fun v => x <- member v key ;; Ok (cdbl x))
           (fun v => cdbl (get v key JNull)) srt); [| |exact Hsort].
  - intros v Hv. apply criterion_of_number. now apply Hnum.
  - intros v Hv. apply cdbl_not_nan. now apply Hnum.
Qed.

(** Rows with pairwise distinct values of the field have one sorted
    order, in whatever order they are given. *)
Lemma sortBy_one_order (xs ys sx sy : list jsval) :
  Permutation xs ys ->
  (forall v, In v xs -> isnum (get v key JNull) = true) ->
  ForallOrdPairs (fun a b => PrimFloat.eqb (cdbl (get a key JNull))
                                           (cdbl (get b key JNull)) = false) xs ->
  sortBy xs (fun v => x <- member v key ;; Ok (cdbl x)) = Ok sx ->
  sortBy ys (fun v => x <- member v key ;; Ok (cdbl x)) = Ok sy ->
  sy = sx.
Proof.
  intros Hp Hnum Hd Hsx Hsy.
  assert (Hnumy : forall v, In v ys -> isnum (get v key JNull) = true).
  { intros v Hv. apply Hnum. now apply (Permutation_in _ (Permutation_sym Hp)). }
  assert (Hpx := sortBy_perm _ _ _ Hsx). assert (Hpy := sortBy_perm _ _ _ Hsy).
  assert (Hstrict : forall l, Permutation l xs -> StronglySorted upto l ->
                    StronglySorted before l).
  { intros l Hl Hs. eapply pairs_StronglySorted; [|exact Hs|].
    - intros a b. apply leb_neq_ltb.
    - exact (ForallOrdPairs_perm _ xs l (fun a b => eqb_false_sym _ _) (Permutation_sym Hl) Hd). }
  apply (strictly_sorted_unique before).
  - intros a b. apply ltb_asym.
  - apply Hstrict; [now rewrite Hpy, Hp | exact (sortBy_ascending ys sy Hnumy Hsy)].
  - apply Hstrict; [exact Hpx | exact (sortBy_ascending xs sx Hnum Hsx)].
  - now rewrite Hpy, Hpx, Hp.
Qed.

End SortedRows.


(** *** Depths that are numbers, and depths that increase *)

Section Depths.

Context {C : Collaborators}.

Hypothesis cdbl_not_nan : forall v, isnum v = true -> PrimFloat.is_nan (cdbl v) = false.

Variable keyDepth : string.

Local Abbreviation valid := (fun v => isnum (get v keyDepth JNull) = true).
Local Abbreviation below :=
  (fun a b => PrimFloat.ltb (cdbl (get a keyDepth JNull)) (cdbl (get b keyDepth JNull)) = true).

Lemma nth_depthsOf (st : list jsval) (k : nat) :
  (k < List.length st)%nat ->
  nth k (depthsOf keyDepth st) 0%float = cdbl (get (nth k st JUndefined) keyDepth JNull).
Proof.
  intros Hk. unfold depthsOf.
  rewrite (nth_indep _ 0%float (cdbl (get JUndefined keyDepth JNull)))
    by (rewrite length_map; exact Hk).
  apply (map_nth (fun v => cdbl (get v keyDepth JNull))).
Qed.

Lemma valid_rows (xs : list jsval) :
  depthErrs keyDepth xs = [] -> Forall valid xs.
Proof.
  intros H. apply Forall_forall. intros v Hin.
  destruct (In_nth_error _ _ Hin) as [i Hi].
  unfold depthErrs in H. rewrite each_nil in H. specialize (H i v Hi). cbv beta zeta in H.
  destruct (isnum (get v keyDepth JNull)); [reflexivity | discriminate].
Qed.

Lemma increasing_rows (srt : list jsval) :
  Forall valid srt -> checkDepth srt keyDepth = [] -> StronglySorted below srt.
Proof.
  intros Hv H. apply Sorted_StronglySorted.
  - intros a b c Hab Hbc. cbv beta in *. eapply ltb_trans; eassumption.
  - apply adjacent_Sorted. intros j a b Ha Hb.
    unfold checkDepth in H. rewrite each_nil in H.
    specialize (H (S j) b Hb). cbv beta zeta in H.
    change (S j =? 0)%nat with false in H. cbv iota in H.
    rewrite getAt_pred, (nth_error_nth_js _ _ _ Ha) in H.
    rewrite Forall_forall in Hv.
    assert (Hva := Hv a (nth_error_In _ _ Ha)). assert (Hvb := Hv b (nth_error_In _ _ Hb)).
    cbv beta in Hva, Hvb.
    apply not_ge_lt; [now apply cdbl_not_nan | now apply cdbl_not_nan|].
    destruct (num_ge _ _); [discriminate | reflexivity].
Qed.

Lemma checkDepth_nil (srt : list jsval) :
  (forall k, (S k < List.length srt)%nat ->
     PrimFloat.ltb (nth k (depthsOf keyDepth srt) 0%float)
                   (nth (S k) (depthsOf keyDepth srt) 0%float) = true) ->
  checkDepth srt keyDepth = [].
Proof.
  intros Hinc. unfold checkDepth. apply each_nil. intros i v Hn.
  destruct i as [|j]; [reflexivity|].
  change (S j =? 0)%nat with false. cbv iota. rewrite getAt_pred.
  assert (Hj : (S j < List.length srt)%nat) by (apply nth_error_Some; congruence).
  assert (Hlt := Hinc j Hj).
  rewrite !nth_depthsOf in Hlt by lia.
  rewrite (nth_error_nth_js _ _ _ Hn) in Hlt.
  cbv zeta.
  replace (num_ge _ _) with false; [reflexivity|].
  symmetry. revert Hlt. generalize (cdbl (get (nth j srt JUndefined) keyDepth JNull)).
  generalize (cdbl (get v keyDepth JNull)). intros a b Hlt. float_order.
Qed.

End Depths.

(** ** [checkDepthStartEnd] *)

Section CheckDepthStartEnd.

Context {C : Collaborators}.

(** C9.  An input that is no array of entries (a value that is no
    array, or the empty array) is answered with the empty list, the
    answer a valid input gets: nothing is thrown and no defect is
    reported. *)
Theorem checkDepthStartEnd_no_rows (rows opt : jsval) :
  isearr rows = false -> checkDepthStartEnd rows opt = Ok [].
Proof.
  intros H. unfold checkDepthStartEnd. now rewrite H.
Qed.

(** When no row is null or undefined the validator returns its list. *)
Lemma checkDepthStartEnd_returns (xs : list jsval) (opt : jsval) :
  (forall v, In v xs -> v <> JNull /\ v <> JUndefined) ->
  exists errs, checkDepthStartEnd (JArr xs) opt = Ok errs.
Proof.
  intros H. unfold checkDepthStartEnd.
  destruct (isearr (JArr xs)); simpl; [|eauto].
  match goal with |- context [sortBy ?l ?f] => destruct (sortBy_total l f) as [srt ->] end.
  - intros v Hv. destruct (H v Hv) as [Hn Hu].
    unfold member. destruct v; try congruence; simpl; eauto.
    destruct (lookup _ ps); simpl; eauto.
  - simpl. eauto.
Qed.



(** What is assumed of the collaborators: null is no number, the number
    of a valid value is not NaN, and a non-empty array of objects that
    have a property is an array of entries. *)
Hypothesis isnum_null : isnum JNull = false.
Hypothesis cdbl_not_nan : forall v, isnum v = true -> PrimFloat.is_nan (cdbl v) = false.
Hypothesis isearr_objects :
  forall xs, xs <> [] -> (forall v, In v xs -> exists p ps, v = JObj (p :: ps)) ->
             isearr (JArr xs) = true.





End CheckDepthStartEnd.

(** ** [calcDepthStartEndFromCenter] *)

Section CalcMore.

Context {C : Collaborators}.

Variables keyDepth keyDepthStart keyDepthEnd : string.

(** One step of the final map on a row that is an object: the row gets
    two fields written, and the step does not throw. *)
Lemma deriveRow_object (up : Z) (st : list jsval) (k : nat) (ps : list (string * jsval)) :
  nth k st JUndefined = JObj ps ->
  exists s e,
    deriveRow keyDepth keyDepthStart keyDepthEnd up st k =
    Ok (update k (JObj (assign keyDepthEnd e (assign keyDepthStart s ps))) st).
Proof.
  intros Hps. unfold deriveRow. rewrite Hps.
  match goal with |- context [let '(a, b) := ?X in _] => destruct X as [ds dc1] end.
  cbn [setProp bind]. eauto.
Qed.

Lemma deriveRow_ok_inv (up : Z) (st st' : list jsval) (k : nat) :
  deriveRow keyDepth keyDepthStart keyDepthEnd up st k = Ok st' ->
  exists ps s e,
    nth k st JUndefined = JObj ps /\
    st' = update k (JObj (assign keyDepthEnd e (assign keyDepthStart s ps))) st.
Proof.
  intros H. destruct (nth k st JUndefined) as [| | | | | |ps] eqn:Hn;
    try (unfold deriveRow in H; rewrite Hn in H;
         match type of H with context [let '(a, b) := ?X in _] => destruct X as [ds dc1] end;
         discriminate).
  destruct (deriveRow_object up st k ps Hn) as (s & e & He). rewrite He in H.
  injection H as <-. eauto.
Qed.

Lemma get_written_other (key : string) (d s e : jsval) (ps : list (string * jsval)) :
  key <> keyDepthStart -> key <> keyDepthEnd ->
  get (JObj (assign keyDepthEnd e (assign keyDepthStart s ps))) key d = get (JObj ps) key d.
Proof.
  intros H1 H2. rewrite get_assign_other by congruence. now rewrite get_assign_other by congruence.
Qed.

(** The frame of the final map: whenever it returns, the rows are as
    many as before and every field but the two written ones is as it
    was. *)
Lemma mapRows_frame (up : Z) (idx : list nat) :
  forall st out,
    mapRows (deriveRow keyDepth keyDepthStart keyDepthEnd up) idx st = Ok out ->
    List.length out = List.length st /\
    forall i key d,
      key <> keyDepthStart -> key <> keyDepthEnd ->
      get (nth i out JUndefined) key d = get (nth i st JUndefined) key d.
Proof.
  induction idx as [|k idx IH]; intros st out H; simpl in H.
  - injection H as <-. auto.
  - destruct (deriveRow _ _ _ _ st k) as [st'|] eqn:E; cbn [bind] in H; [|discriminate].
    destruct (deriveRow_ok_inv _ _ _ _ E) as (ps & s & e & Hps & ->).
    destruct (IH _ _ H) as (Hlen & Hframe).
    split; [now rewrite Hlen, update_length|].
    intros i key d H1 H2. rewrite (Hframe i key d H1 H2), nth_update.
    destruct ((i =? k)%nat && (k <? List.length st)%nat) eqn:Ei; [|reflexivity].
    apply andb_true_iff in Ei. destruct Ei as [Ei _]. apply Nat.eqb_eq in Ei. subst i.
    rewrite Hps. now apply get_written_other.
Qed.

(** On rows that are objects the final map does not throw. *)
Lemma mapRows_objects (up : Z) (idx : list nat) :
  forall st,
    (forall k, In k idx -> (k < List.length st)%nat) ->
    Forall (fun v => exists ps, v = JObj ps) st ->
    exists out, mapRows (deriveRow keyDepth keyDepthStart keyDepthEnd up) idx st = Ok out.
Proof.
  induction idx as [|k idx IH]; intros st Hlt Hobj; simpl; [eauto|].
  assert (Hk : (k < List.length st)%nat) by (apply Hlt; now left).
  assert (Hps : exists ps, nth k st JUndefined = JObj ps).
  { rewrite Forall_forall in Hobj. apply Hobj. now apply nth_In. }
  destruct Hps as [ps Hps].
  destruct (deriveRow_object up st k ps Hps) as (s & e & ->). cbn [bind].
  apply IH.
  - intros j Hj. rewrite update_length. apply Hlt. now right.
  - apply Forall_forall. intros v Hv.
    destruct (In_nth _ _ JUndefined Hv) as (i & Hi & <-). rewrite update_length in Hi.
    rewrite nth_update. destruct ((i =? k)%nat && (k <? List.length st)%nat); [eauto|].
    rewrite Forall_forall in Hobj. apply Hobj. now apply nth_In.
Qed.

End CalcMore.

(** *** The objects of the caller *)

Section CalcInPlace.

Context {C : Collaborators}.



End CalcInPlace.


Section CalcDepthStartEndFromCenter.

Context {C : Collaborators}.


Lemma each_from_ext (f g : jsval -> nat -> list violation) (xs : list jsval) :
  forall k0,
    (forall i v, nth_error xs i = Some v -> f v (k0 + i)%nat = g v (k0 + i)%nat) ->
    each_from f k0 xs = each_from g k0 xs.
Proof.
  induction xs as [|x xs IH]; intros k0 H; simpl; [reflexivity|].
  rewrite (IH (S k0)).
  - specialize (H 0%nat x eq_refl). rewrite Nat.add_0_r in H. now rewrite H.
  - intros i v Hn. specialize (H (S i) v Hn). now rewrite Nat.add_succ_r in H.
Qed.


(** What the collaborators are assumed to do: null is no number; the
    number of a valid value is itself valid and its own number, and is
    not NaN; an array of objects that have a property is an array of
    entries, and an array of entries has an element; and a path of an
    index and a name without a dot or a bracket has these two keys. *)
Hypothesis isnum_null : isnum JNull = false.
Hypothesis cdbl_idem :
  forall v, isnum v = true -> isnum (JNum (cdbl v)) = true /\ cdbl (JNum (cdbl v)) = cdbl v.
Hypothesis cdbl_not_nan : forall v, isnum v = true -> PrimFloat.is_nan (cdbl v) = false.
Hypothesis isearr_objects :
  forall xs, xs <> [] -> (forall v, In v xs -> exists p ps, v = JObj (p :: ps)) ->
             isearr (JArr xs) = true.
Hypothesis isearr_elements : forall v, isearr v = true -> elements v <> [].
Hypothesis path_of_name :
  forall i name, plainName name = true ->
                 stringToPath (index i ++ "." ++ name)%string = [index i; name].

(** An array of rows with a numeric field is an array of entries. *)
Lemma isearr_valid (key : string) (xs : list jsval) :
  xs <> [] -> (forall v, In v xs -> isnum (get v key JNull) = true) -> isearr (JArr xs) = true.
Proof.
  intros Hne Hnum. apply isearr_objects; [exact Hne|].
  intros v Hv. exact (valid_has_entries isnum_null key v (Hnum v Hv)).
Qed.

(** For a depth field whose name is one key, the second check reads the
    depth of the row before as it reads the depth of the row: it is the
    check of increasing depths. *)
Lemma increasingErrs_plain (keyDepth : string) (rows : list jsval) :
  plainName keyDepth = true ->
  (forall v, In v rows -> forall l, v <> JArr l) ->
  increasingErrs keyDepth rows = checkDepth rows keyDepth.
Proof.
  intros Hp Hrows. unfold increasingErrs, checkDepth, each.
  apply each_from_ext. intros i v Hn. cbn [Nat.add].
  destruct i as [|j]; [reflexivity|].
  change (S j =? 0)%nat with false. cbv iota.
  rewrite path_of_name by exact Hp.
  replace (S j - 1)%nat with j by lia.
  rewrite getAt_pred, getIn_row; [reflexivity|].
  intros l Hl.
  assert (Hj : (j < List.length rows)%nat).
  { assert (S j < List.length rows)%nat by (apply nth_error_Some; congruence). lia. }
  exact (Hrows _ (nth_In rows JUndefined Hj) l Hl).
Qed.

Lemma increasingErrs_valid (keyDepth : string) (rows : list jsval) :
  plainName keyDepth = true ->
  (forall v, In v rows -> isnum (get v keyDepth JNull) = true) ->
  increasingErrs keyDepth rows = checkDepth rows keyDepth.
Proof.
  intros Hp Hnum. apply increasingErrs_plain; [exact Hp|].
  intros v Hv l ->. specialize (Hnum _ Hv). simpl in Hnum.
  rewrite isnum_null in Hnum. discriminate.
Qed.

Section DistinctKeys.

Variables keyDepth keyDepthStart keyDepthEnd : string.
Hypothesis depth_not_start : keyDepth <> keyDepthStart.
Hypothesis depth_not_end : keyDepth <> keyDepthEnd.
Hypothesis start_not_end : keyDepthStart <> keyDepthEnd.

Local Abbreviation valid := (fun v => isnum (get v keyDepth JNull) = true).
Local Abbreviation raw := (fun v => get v keyDepth JNull).

Lemma deriveRow_spec (st : list jsval) (k : nat) :
  (k < List.length st)%nat ->
  Forall valid st ->
  exists ps,
    nth k st JUndefined = JObj ps /\
    deriveRow keyDepth keyDepthStart keyDepthEnd (Z.of_nat (List.length st) - 1) st k =
    Ok (update k
          (JObj (assign keyDepthEnd (JNum (endAt (depthsOf keyDepth st) k))
                   (assign keyDepthStart (JNum (startAt (depthsOf keyDepth st) k)) ps)))
          st).
Proof.
  intros Hk Hv.
  assert (Hnth : forall j, (j < List.length st)%nat -> valid (nth j st JUndefined)).
  { intros j Hj. rewrite Forall_forall in Hv. apply Hv. now apply nth_In. }
  destruct (valid_is_object isnum_null keyDepth _ (Hnth k Hk)) as [ps Hps].
  exists ps. split; [exact Hps|].
  unfold deriveRow.
  assert (H1 := Hnth k Hk). cbv beta in H1.
  destruct (cdbl_idem _ H1) as [Hi1 Hi2].
  assert (Hend : (if (Z.of_nat k =? Z.of_nat (List.length st) - 1)%Z
                  then if isnum (JNum (cdbl (get (nth k st JUndefined) keyDepth JNull)))
                       then JNum (cdbl (JNum (cdbl (get (nth k st JUndefined) keyDepth JNull))))
                       else JNull
                  else if isnum (JNum (cdbl (get (nth k st JUndefined) keyDepth JNull))) &&
                          isnum (get (getAt st (Z.of_nat k + 1)) keyDepth JNull)
                       then JNum (midpoint (cdbl (JNum (cdbl (get (nth k st JUndefined) keyDepth JNull))))
                                   (cdbl (get (getAt st (Z.of_nat k + 1)) keyDepth JNull)))
                       else JNull)
                 = JNum (endAt (depthsOf keyDepth st) k)).
  { unfold endAt. unfold depthsOf at 1. rewrite length_map. rewrite Hi1, Hi2.
    destruct (Z.eqb_spec (Z.of_nat k) (Z.of_nat (List.length st) - 1)) as [E|E].
    - replace (S k =? List.length st)%nat with true by (symmetry; apply Nat.eqb_eq; lia).
      now rewrite nth_depthsOf.
    - replace (S k =? List.length st)%nat with false by (symmetry; apply Nat.eqb_neq; lia).
      rewrite getAt_succ.
      assert (H2 := Hnth (S k) ltac:(lia)). cbv beta in H2. rewrite H2. simpl.
      rewrite !nth_depthsOf by lia. reflexivity. }
  destruct k as [|j].
  - change (0 =? 0)%nat with true. cbv iota. rewrite H1.
    cbv beta iota zeta. rewrite Hend.
    rewrite Hps. simpl. unfold startAt. rewrite nth_depthsOf by lia. rewrite Hps. reflexivity.
  - change (S j =? 0)%nat with false. cbv iota. rewrite getAt_pred.
    assert (H0 := Hnth j ltac:(lia)). cbv beta in H0. rewrite H0, H1.
    cbv beta iota zeta. change (true && true) with true. cbv iota. rewrite Hend.
    rewrite Hps. simpl. unfold startAt. rewrite !nth_depthsOf by lia. rewrite Hps. reflexivity.
Qed.


Lemma raw_written (ps : list (string * jsval)) (s e : jsval) :
  get (JObj (assign keyDepthEnd e (assign keyDepthStart s ps))) keyDepth JNull =
  get (JObj ps) keyDepth JNull.
Proof.
  rewrite get_assign_other by congruence. now rewrite get_assign_other by congruence.
Qed.

Lemma valid_of_raws (st st' : list jsval) :
  map raw st' = map raw st -> Forall valid st -> Forall valid st'.
Proof.
  intros Hm Hv.
  assert (H : Forall (fun r => isnum r = true) (map raw st)) by now apply Forall_map.
  rewrite <- Hm in H. now apply Forall_map in H.
Qed.

Lemma depthsOf_of_raws (st st' : list jsval) :
  map raw st' = map raw st -> depthsOf keyDepth st' = depthsOf keyDepth st.
Proof.
  intros Hm. unfold depthsOf.
  rewrite <- (map_map raw cdbl st'), <- (map_map raw cdbl st). now rewrite Hm.
Qed.

(** The loop that writes the intervals: every visited row gets its own
    start and end, computed from depths no step has changed. *)
Lemma mapRows_spec (idx : list nat) :
  forall st,
    NoDup idx -> (forall k, In k idx -> (k < List.length st)%nat) -> Forall valid st ->
    exists out,
      mapRows (deriveRow keyDepth keyDepthStart keyDepthEnd (Z.of_nat (List.length st) - 1)) idx st
        = Ok out /\
      List.length out = List.length st /\
      map raw out = map raw st /\
      forall k,
        (In k idx -> exists ps,
            nth k st JUndefined = JObj ps /\
            nth k out JUndefined =
              JObj (assign keyDepthEnd (JNum (endAt (depthsOf keyDepth st) k))
                      (assign keyDepthStart (JNum (startAt (depthsOf keyDepth st) k)) ps))) /\
        (~ In k idx -> nth k out JUndefined = nth k st JUndefined).
Proof.
  induction idx as [|k idx IH]; intros st Hnd Hlt Hv.
  - exists st. simpl. repeat split; auto. intros [].
  - inversion Hnd as [|? ? Hnotin Hnd']; subst.
    destruct (deriveRow_spec st k (Hlt k (or_introl eq_refl)) Hv) as (ps & Hps & Hstep).
    set (w := JObj (assign keyDepthEnd (JNum (endAt (depthsOf keyDepth st) k))
                      (assign keyDepthStart (JNum (startAt (depthsOf keyDepth st) k)) ps))) in *.
    assert (Hraw : map raw (update k w st) = map raw st).
    { apply map_update. rewrite Hps. apply raw_written. }
    assert (Hlen : List.length (update k w st) = List.length st) by apply length_update.
    destruct (IH (update k w st) Hnd') as (out & Hout & Hlo & Hro & Hall).
    { intros j Hj. rewrite Hlen. apply Hlt. now right. }
    { now apply valid_of_raws with st. }
    exists out. simpl. rewrite Hstep. simpl. rewrite Hlen in Hout.
    split; [exact Hout|]. split; [congruence|]. split; [congruence|].
    intros j. split.
    + intros [<-|Hj].
      * exists ps. split; [exact Hps|].
        destruct (Hall k) as [_ Hk]. rewrite (Hk Hnotin).
        apply nth_update_same. apply Hlt. now left.
      * destruct (Hall j) as [Hj' _]. destruct (Hj' Hj) as (ps' & Hps' & Ho).
        assert (j <> k) by (intros ->; contradiction).
        rewrite nth_update_other in Hps' by assumption.
        exists ps'. split; [exact Hps'|].
        now rewrite (depthsOf_of_raws _ _ Hraw) in Ho.
    + intros Hj. destruct (Hall j) as [_ Hj']. rewrite Hj'.
      * apply nth_update_other. intros ->. apply Hj. now left.
      * intros Hin. apply Hj. now right.
Qed.

End DistinctKeys.


(** After the first check the call is its sort, its second check and
    its final map. *)
Lemma calc_after_validation (rows opt : jsval) :
  let keyDepth := optKey opt "keyDepth" "depth" in
  let keyDepthStart := optKey opt "keyDepthStart" "depthStart" in
  let keyDepthEnd := optKey opt "keyDepthEnd" "depthEnd" in
  isearr rows = true ->
  (forall v, In v (elements rows) -> isnum (get v keyDepth JNull) = true) ->
  exists srt,
    sortBy (elements rows) (fun v => x <- member v keyDepth ;; Ok (cdbl x)) = Ok srt /\
    Permutation srt (elements rows) /\
    calcDepthStartEndFromCenter rows opt =
      if (0 <? List.length (increasingErrs keyDepth srt))%nat
      then Throw (Error (Joined "; " (increasingErrs keyDepth srt)))
      else
        rows <- mapRows (deriveRow keyDepth keyDepthStart keyDepthEnd
                           (Z.of_nat (List.length srt) - 1))
                  (seq 0 (List.length srt)) srt ;;
        Ok (JArr rows).
Proof.
  intros kd ks ke Hearr Hnum.
  destruct (sortBy_total (elements rows) (fun v => x <- member v kd ;; Ok (cdbl x)))
    as [srt Hsort].
  { intros v Hv. rewrite (member_valid isnum_null kd v (Hnum v Hv)). simpl. eauto. }
  exists srt. split; [exact Hsort|]. split; [exact (sortBy_perm _ _ _ Hsort)|].
  unfold calcDepthStartEndFromCenter.
  rewrite Hearr. cbn [negb]. fold kd ks ke.
  assert (He1 : depthErrs kd (elements rows) = []).
  { unfold depthErrs. apply each_nil. intros i v Hn.
    rewrite (Hnum v (nth_error_In _ _ Hn)). reflexivity. }
  rewrite He1. cbn [List.length Nat.ltb Nat.leb]. rewrite Hsort. cbn [bind app]. reflexivity.
Qed.





(** The rows a call returns are its input rows in sorted order, each
    with every field it had but the two the call writes. *)
Theorem calc_keeps_other_fields (rows opt res : jsval) :
  let keyDepth := optKey opt "keyDepth" "depth" in
  let keyDepthStart := optKey opt "keyDepthStart" "depthStart" in
  let keyDepthEnd := optKey opt "keyDepthEnd" "depthEnd" in
  calcDepthStartEndFromCenter rows opt = Ok res ->
  exists srt out,
    res = JArr out /\
    sortBy (elements rows) (fun v => x <- member v keyDepth ;; Ok (cdbl x)) = Ok srt /\
    Permutation srt (elements rows) /\
    List.length out = List.length srt /\
    forall i key dflt,
      key <> keyDepthStart -> key <> keyDepthEnd ->
      get (nth i out JUndefined) key dflt = get (nth i srt JUndefined) key dflt.
Proof.
  intros kd ks ke. unfold calcDepthStartEndFromCenter. fold kd ks ke.
  destruct (isearr rows); cbn [negb]; [|discriminate].
  destruct (0 <? List.length (depthErrs kd (elements rows)))%nat; [discriminate|].
  destruct (sortBy (elements rows) _) as [srt|] eqn:Hsort; cbn [bind]; [|discriminate].
  destruct (0 <? List.length _)%nat; [discriminate|].
  destruct (mapRows _ _ srt) as [out|] eqn:Hmap; cbn [bind]; [|discriminate].
  intros H. injection H as <-.
  destruct (mapRows_frame _ _ _ _ _ _ _ Hmap) as (Hlen & Hframe).
  exists srt, out. repeat split; auto. exact (sortBy_perm _ _ _ Hsort).
Qed.

(** The check of increasing depths passes exactly when no two depths are
    equal. *)
Lemma increasing_iff_distinct (keyDepth : string) (xs srt : list jsval) :
  (forall v, In v xs -> isnum (get v keyDepth JNull) = true) ->
  sortBy xs (fun v => x <- member v keyDepth ;; Ok (cdbl x)) = Ok srt ->
  (checkDepth srt keyDepth = [] <->
   ForallOrdPairs (fun a b => PrimFloat.eqb (cdbl (get a keyDepth JNull))
                                            (cdbl (get b keyDepth JNull)) = false) xs) /\
  (checkDepth srt keyDepth = [] ->
   StronglySorted (fun a b => PrimFloat.ltb (cdbl (get a keyDepth JNull))
                                            (cdbl (get b keyDepth JNull)) = true) srt).
Proof.
  intros Hnum Hsort.
  assert (Hperm := sortBy_perm _ _ _ Hsort).
  assert (Hv : Forall (fun v => isnum (get v keyDepth JNull) = true) srt).
  { apply Forall_forall. intros v Hin. apply Hnum. now apply (Permutation_in _ Hperm). }
  assert (Hstrict : checkDepth srt keyDepth = [] ->
            StronglySorted (fun a b => PrimFloat.ltb (cdbl (get a keyDepth JNull))
                                                     (cdbl (get b keyDepth JNull)) = true) srt).
  { intros H. exact (increasing_rows cdbl_not_nan keyDepth srt Hv H). }
  split; [|exact Hstrict]. split.
  - intros H. apply (ForallOrdPairs_perm _ srt xs); [|exact Hperm|].
    + intros a b. apply eqb_false_sym.
    + eapply StronglySorted_pairs; [|exact (Hstrict H)]. intros a b. apply ltb_not_eqb.
  - intros Hd.
    assert (Hd' := ForallOrdPairs_perm _ xs srt
                     (fun a b => eqb_false_sym _ _) (Permutation_sym Hperm) Hd).
    assert (Hle := sortBy_ascending isnum_null cdbl_not_nan keyDepth xs srt Hnum Hsort).
    assert (Hlt : StronglySorted (fun a b => PrimFloat.ltb (cdbl (get a keyDepth JNull))
                                                           (cdbl (get b keyDepth JNull)) = true) srt).
    { eapply pairs_StronglySorted; [|exact Hle|exact Hd']. intros a b. apply leb_neq_ltb. }
    apply checkDepth_nil. intros k Hk. rewrite !nth_depthsOf by lia.
    apply (StronglySorted_nth _ srt JUndefined Hlt); lia.
Qed.

(** Given a non-empty array whose depths are all numbers, under a depth
    field name without a dot or a bracket: the call returns exactly when
    no two samples have the same depth; two equal depths are always
    rejected. *)
Theorem calc_returns_iff_distinct (xs : list jsval) (opt : jsval) :
  let keyDepth := optKey opt "keyDepth" "depth" in
  plainName keyDepth = true ->
  xs <> [] ->
  (forall v, In v xs -> isnum (get v keyDepth JNull) = true) ->
  (exists out, calcDepthStartEndFromCenter (JArr xs) opt = Ok (JArr out)) <->
  ForallOrdPairs (fun a b => PrimFloat.eqb (cdbl (get a keyDepth JNull))
                                           (cdbl (get b keyDepth JNull)) = false) xs.
Proof.
  intros kd Hplain Hne Hnum.
  destruct (calc_after_validation (JArr xs) opt (isearr_valid kd xs Hne Hnum) Hnum)
    as (srt & Hsort & Hperm & Hcalc).
  cbn [elements] in Hsort, Hperm. fold kd in Hsort, Hcalc.
  assert (Hnums : forall v, In v srt -> isnum (get v kd JNull) = true).
  { intros v Hin. apply Hnum. now apply (Permutation_in _ Hperm). }
  rewrite (increasingErrs_valid kd srt Hplain Hnums) in Hcalc.
  destruct (increasing_iff_distinct kd xs srt Hnum Hsort) as [Hiff _].
  rewrite <- Hiff, Hcalc. split.
  - intros [out H]. destruct (checkDepth srt kd); [reflexivity | discriminate].
  - intros ->. cbn [List.length Nat.ltb Nat.leb].
    match goal with |- context [mapRows ?st ?idx ?rows] =>
      destruct (mapRows_objects
                  kd (optKey opt "keyDepthStart" "depthStart") (optKey opt "keyDepthEnd" "depthEnd")
                  (Z.of_nat (List.length srt) - 1) (seq 0 (List.length srt)) srt) as [out ->]
    end.
    + intros k Hk. apply in_seq in Hk. lia.
    + apply Forall_forall. intros v Hin.
      apply (valid_is_object isnum_null kd v). now apply Hnums.
    + cbn [bind]. eauto.
Qed.


Lemma calc_ok_inv (rows opt res : jsval) :
  calcDepthStartEndFromCenter rows opt = Ok res ->
  isearr rows = true /\
  forall v, In v (elements rows) -> isnum (get v (optKey opt "keyDepth" "depth") JNull) = true.
Proof.
  unfold calcDepthStartEndFromCenter.
  destruct (isearr rows) eqn:Hearr; cbn [negb]; [|discriminate].
  destruct (0 <? List.length (depthErrs _ (elements rows)))%nat eqn:E; [discriminate|].
  intros _. apply length_zero_nil in E. split; [reflexivity|].
  assert (Hv := valid_rows _ _ E). now rewrite Forall_forall in Hv.
Qed.

(** What a call that returns has done, when the depth field is one key
    and neither of the two fields it writes. *)
Lemma calc_ok_rows (rows opt : jsval) (out : list jsval) :
  let keyDepth := optKey opt "keyDepth" "depth" in
  let keyDepthStart := optKey opt "keyDepthStart" "depthStart" in
  let keyDepthEnd := optKey opt "keyDepthEnd" "depthEnd" in
  plainName keyDepth = true ->
  keyDepth <> keyDepthStart -> keyDepth <> keyDepthEnd ->
  calcDepthStartEndFromCenter rows opt = Ok (JArr out) ->
  exists srt,
    Permutation srt (elements rows) /\
    out <> [] /\
    List.length out = List.length srt /\
    depthsOf keyDepth out = depthsOf keyDepth srt /\
    Forall (fun v => isnum (get v keyDepth JNull) = true) out /\
    StronglySorted (fun a b => PrimFloat.ltb (cdbl (get a keyDepth JNull))
                                             (cdbl (get b keyDepth JNull)) = true) out /\
    forall k, (k < List.length srt)%nat ->
      exists ps,
        nth k out JUndefined =
          JObj (assign keyDepthEnd (JNum (endAt (depthsOf keyDepth srt) k))
                  (assign keyDepthStart (JNum (startAt (depthsOf keyDepth srt) k)) ps)).
Proof.
  intros kd ks ke Hplain Hds Hde Hcalc.
  destruct (calc_ok_inv _ _ _ Hcalc) as (Hearr & Hnum). fold kd in Hnum.
  destruct (calc_after_validation rows opt Hearr Hnum) as (srt & Hsort & Hperm & Heq).
  fold kd ks ke in Hsort, Heq. rewrite Heq in Hcalc.
  assert (Hv : Forall (fun v => isnum (get v kd JNull) = true) srt).
  { apply Forall_forall. intros v Hin. apply Hnum. now apply (Permutation_in _ Hperm). }
  rewrite (increasingErrs_valid kd srt Hplain) in Hcalc by (now rewrite Forall_forall in Hv).
  destruct (checkDepth srt kd) as [|e es] eqn:Hinc; [|discriminate].
  cbn [List.length Nat.ltb Nat.leb] in Hcalc.
  destruct (mapRows_spec kd ks ke Hds Hde (seq 0 (List.length srt)) srt)
    as (out' & Hout & Hlen & Hraw & Hall).
  { apply seq_NoDup. }
  { intros k Hk. apply in_seq in Hk. lia. }
  { exact Hv. }
  rewrite Hout in Hcalc. cbn [bind] in Hcalc. injection Hcalc as <-.
  assert (Hdep := depthsOf_of_raws kd srt out' Hraw).
  destruct (increasing_iff_distinct kd (elements rows) srt Hnum Hsort)
    as [_ Hstrict].
  exists srt.
  split; [exact Hperm|]. split; [|split; [exact Hlen|split; [exact Hdep|split; [|split]]]].
  - intros ->. apply Permutation_length in Hperm. simpl in Hlen.
    apply (isearr_elements rows Hearr). apply length_zero_iff_nil. lia.
  - now apply (valid_of_raws kd srt out').
  - apply (StronglySorted_map (fun v => cdbl (get v kd JNull))
             (fun a b => PrimFloat.ltb a b = true)).
    change (map (fun v => cdbl (get v kd JNull)) out') with (depthsOf kd out').
    rewrite Hdep.
    apply (StronglySorted_map (fun v => cdbl (get v kd JNull))
             (fun a b => PrimFloat.ltb a b = true)).
    now apply Hstrict.
  - intros k Hk. destruct (Hall k) as [H1 _].
    destruct H1 as (ps & _ & Hk1); [apply in_seq; lia|]. eauto.
Qed.

(** The rows a call returns are in strictly ascending order of depth,
    when the depth field name has no dot and no bracket and is neither
    of the two fields the call writes. *)
Theorem calc_rows_ascending (rows opt : jsval) (out : list jsval) :
  let keyDepth := optKey opt "keyDepth" "depth" in
  let keyDepthStart := optKey opt "keyDepthStart" "depthStart" in
  let keyDepthEnd := optKey opt "keyDepthEnd" "depthEnd" in
  plainName keyDepth = true ->
  keyDepth <> keyDepthStart -> keyDepth <> keyDepthEnd ->
  calcDepthStartEndFromCenter rows opt = Ok (JArr out) ->
  StronglySorted (fun a b => PrimFloat.ltb (cdbl (get a keyDepth JNull))
                                           (cdbl (get b keyDepth JNull)) = true) out.
Proof.
  intros kd ks ke Hplain Hds Hde Hcalc.
  destruct (calc_ok_rows _ _ _ Hplain Hds Hde Hcalc) as (srt & _ & _ & _ & _ & _ & Hso & _).
  exact Hso.
Qed.

(** The call is idempotent: with three distinct field names, and a
    depth field name without a dot or a bracket, the rows it returns are
    accepted by a second call, which returns them as they are.  (A depth
    field that is a path through the start field is another matter: see
    [calc_not_idempotent_on_a_path].) *)
Theorem calc_idempotent (rows opt : jsval) (out : list jsval) :
  let keyDepth := optKey opt "keyDepth" "depth" in
  let keyDepthStart := optKey opt "keyDepthStart" "depthStart" in
  let keyDepthEnd := optKey opt "keyDepthEnd" "depthEnd" in
  plainName keyDepth = true ->
  keyDepth <> keyDepthStart -> keyDepth <> keyDepthEnd -> keyDepthStart <> keyDepthEnd ->
  calcDepthStartEndFromCenter rows opt = Ok (JArr out) ->
  calcDepthStartEndFromCenter (JArr out) opt = Ok (JArr out).
Proof.
  intros kd ks ke Hplain Hds Hde Hse Hcalc.
  destruct (calc_ok_rows _ _ _ Hplain Hds Hde Hcalc)
    as (srt & _ & Hneo & Hlen & Hdep & Hvo & Hso & Hall).
  fold kd ks ke in Hdep, Hvo, Hso, Hall.
  assert (Hnumo : forall v, In v out -> isnum (get v kd JNull) = true)
    by now rewrite Forall_forall in Hvo.
  destruct (calc_after_validation (JArr out) opt (isearr_valid kd out Hneo Hnumo) Hnumo)
    as (srt2 & Hsort2 & Hperm2 & ->).
  cbn [elements] in Hsort2, Hperm2. fold kd ks ke in Hsort2 |- *.
  destruct (increasing_iff_distinct kd out srt2 Hnumo Hsort2)
    as [Hiff2 Hstrict2].
  assert (Hinc2 : checkDepth srt2 kd = []).
  { apply Hiff2. eapply StronglySorted_pairs; [|exact Hso]. intros a b. apply ltb_not_eqb. }
  assert (Hsame : srt2 = out).
  { apply (strictly_sorted_unique
             (fun a b => PrimFloat.ltb (cdbl (get a kd JNull)) (cdbl (get b kd JNull)) = true)).
    - intros a b. apply ltb_asym.
    - now apply Hstrict2.
    - exact Hso.
    - exact Hperm2. }
  subst srt2. rewrite (increasingErrs_valid kd out Hplain Hnumo), Hinc2.
  cbn [List.length Nat.ltb Nat.leb].
  destruct (mapRows_spec kd ks ke Hds Hde (seq 0 (List.length out)) out)
    as (out2 & Hout2 & Hlen2 & _ & Hall2).
  { apply seq_NoDup. }
  { intros k Hk. apply in_seq in Hk. lia. }
  { exact Hvo. }
  rewrite Hout2. cbn [bind]. do 2 f_equal.
  apply (nth_ext _ _ JUndefined JUndefined); [exact Hlen2|].
  intros k Hk. rewrite Hlen2 in Hk.
  destruct (Hall k) as (ps & Hk1); [lia|].
  destruct (Hall2 k) as [H2 _]. destruct H2 as (ps2 & Hps2 & Hk2); [apply in_seq; lia|].
  rewrite Hk2, Hk1. rewrite Hk1 in Hps2. injection Hps2 as <-. rewrite Hdep. f_equal.
  rewrite (assign_same ks (JNum (startAt (depthsOf kd srt) k)))
    by (rewrite lookup_assign_other by congruence; apply lookup_assign_same).
  apply assign_same, lookup_assign_same.
Qed.

End CalcDepthStartEndFromCenter.

(** ** [groupByDepthStartEnd] *)

Section GroupRanges.

Context {C : Collaborators}.

Variables keyDepth keyDepthStart keyDepthEnd : string.

(** The loop over the ranges writes to the objects of the positions it
    visits and to no other, and leaves as many objects as there were. *)
Lemma groupRanges_frame (places : list nat) :
  forall objects ts objects',
    groupRanges keyDepth keyDepthStart keyDepthEnd places objects ts = Ok objects' ->
    List.length objects' = List.length objects /\
    forall q, ~ In q places -> nth q objects' JUndefined = nth q objects JUndefined.
Proof.
  induction places as [|p places IH]; intros objects ts objects' H; cbn [groupRanges] in H.
  - injection H as <-. auto.
  - cbv zeta in H.
    destruct (detect _ _ _ _ _) as [r|]; cbn [bind] in H; [|discriminate].
    destruct (setProp _ _ _) as [v|]; cbn [bind] in H; [|discriminate].
    destruct (IH _ _ _ H) as [Hlen Hframe]. split.
    + now rewrite Hlen, length_update.
    + intros q Hq. rewrite Hframe by (intros Hin; apply Hq; now right).
      apply nth_update_other. intros ->. apply Hq. now left.
Qed.

(** When no object is at two positions, the loop is the loop over the
    entries, each written once. *)
Lemma groupRanges_distinct (places : list nat) :
  forall objects ts,
    NoDup places ->
    match groupRanges keyDepth keyDepthStart keyDepthEnd places objects ts,
          groupRangesOwn keyDepth keyDepthStart keyDepthEnd (entries objects places) ts with
    | Ok objects', Ok groups => entries objects' places = groups
    | Throw e, Throw e' => e = e'
    | _, _ => False
    end.
Proof.
  induction places as [|p places IH]; intros objects ts Hnd.
  - reflexivity.
  - inversion Hnd as [|? ? Hnotin Hnd']; subst.
    change (entries objects (p :: places))
      with (nth p objects JUndefined :: entries objects places).
    cbn [groupRanges groupRangesOwn]. cbv zeta.
    destruct (detect _ _ _ _ _) as [r|e]; cbn [bind]; [|reflexivity].
    destruct (nth p objects JUndefined) as [| | | | | |ps] eqn:Hv; cbn [setProp bind];
      try reflexivity.
    set (v := JObj (assign "rows" (cloneDeep (JArr (snd r))) ps)).
    assert (Hp : (p < List.length objects)%nat).
    { destruct (Nat.lt_ge_cases p (List.length objects)) as [H|H]; [exact H|].
      rewrite nth_overflow in Hv by exact H. discriminate. }
    assert (Hsame : entries (update p v objects) places = entries objects places).
    { unfold entries. apply map_ext_in. intros q Hq. apply nth_update_other.
      intros ->. contradiction. }
    assert (IH' := IH (update p v objects) (pullAt ts (fst r)) Hnd').
    rewrite Hsame in IH'.
    destruct (groupRanges _ _ _ places _ _) as [objects'|e1] eqn:Hloop;
      destruct (groupRangesOwn _ _ _ _ _) as [groups|e2]; cbn [bind]; try exact IH'.
    destruct (groupRanges_frame _ _ _ _ Hloop) as [_ Hframe].
    change (entries objects' (p :: places))
      with (nth p objects' JUndefined :: entries objects' places).
    rewrite IH', (Hframe p Hnotin), nth_update_same by exact Hp. reflexivity.
Qed.

End GroupRanges.

Section GroupByDepthStartEnd.

Context {C : Collaborators}.

(** The function on ranges given as a value: every range is read and
    written as an object of its own. *)
Lemma groupBy_own (rows depthStartAndEnds opt : jsval) :
  groupByDepthStartEnd rows depthStartAndEnds opt =
  if negb (isearr rows) then Throw (Error NoValidData)
  else if negb (isearr depthStartAndEnds) && negb (iseobj depthStartAndEnds)
  then Throw (Error NoValidRanges)
  else
    let keyDepth := optKey opt "keyDepth" "depth" in
    let keyDepthStart := optKey opt "keyDepthStart" "depthStart" in
    let keyDepthEnd := optKey opt "keyDepthEnd" "depthEnd" in
    let errs := depthErrs keyDepth (elements rows) in
    if (0 <? List.length errs)%nat then Throw (Error (Joined "; " errs))
    else
      rows <- sortBy (elements rows) (fun v => x <- member v keyDepth ;; Ok (cdbl x)) ;;
      let ckd := checkDepth rows keyDepth in
      if (0 <? List.length ckd)%nat then Throw (Error (Joined ", " ckd))
      else
        let depthStartAndEnds := rangesOf depthStartAndEnds in
        let errs := (errs ++ rangeNumberErrs keyDepthStart keyDepthEnd depthStartAndEnds)%list in
        if (0 <? List.length errs)%nat then Throw (Error (Joined "; " errs))
        else
          let errs := (errs ++ rangeOrderErrs keyDepthStart keyDepthEnd depthStartAndEnds)%list in
          if (0 <? List.length errs)%nat then Throw (Error (Joined "; " errs))
          else
            rs <- groupRangesOwn keyDepth keyDepthStart keyDepthEnd depthStartAndEnds rows ;;
            Ok (JArr rs).
Proof.
  unfold groupByDepthStartEnd, groupChecked, cloneDeep.
  destruct (negb (isearr rows)); [reflexivity|].
  destruct (negb (isearr depthStartAndEnds) && negb (iseobj depthStartAndEnds)); [reflexivity|].
  cbv zeta. fold (rangesOf depthStartAndEnds). rewrite entries_seq.
  destruct (0 <? List.length (depthErrs _ (elements rows)))%nat; [reflexivity|].
  destruct (sortBy _ _) as [srt|e]; cbn [bind]; [|reflexivity].
  destruct (0 <? List.length (checkDepth _ _))%nat; [reflexivity|].
  destruct (0 <? List.length (_ ++ rangeNumberErrs _ _ _))%nat; [reflexivity|].
  destruct (0 <? List.length (_ ++ rangeOrderErrs _ _ _))%nat; [reflexivity|].
  rewrite map_id. cbn [elements].
  assert (H := groupRanges_distinct
                 (optKey opt "keyDepth" "depth") (optKey opt "keyDepthStart" "depthStart")
                 (optKey opt "keyDepthEnd" "depthEnd")
                 (seq 0 (List.length (rangesOf depthStartAndEnds)))
                 (rangesOf depthStartAndEnds) srt (seq_NoDup _ _)).
  rewrite entries_seq in H.
  destruct (groupRanges _ _ _ _ _ _) as [objects'|e1];
    destruct (groupRangesOwn _ _ _ _ _) as [groups|e2]; cbn [bind]; try contradiction.
  - now rewrite H.
  - now rewrite H.
Qed.


(** What the collaborators are assumed to do: null is no number; on a
    valid value [cdbl] is the coercion of the language; the number of a
    valid value is not NaN; and an array of objects that have a property
    is an array of entries. *)
Hypothesis isnum_null : isnum JNull = false.
Hypothesis cdbl_ToNumber : forall v, isnum v = true -> ToNumber v = cdbl v.
Hypothesis cdbl_not_nan : forall v, isnum v = true -> PrimFloat.is_nan (cdbl v) = false.
Hypothesis isearr_objects :
  forall xs, xs <> [] -> (forall v, In v xs -> exists p ps, v = JObj (p :: ps)) ->
             isearr (JArr xs) = true.

Lemma isearr_rows (key : string) (xs : list jsval) :
  xs <> [] -> (forall v, In v xs -> isnum (get v key JNull) = true) -> isearr (JArr xs) = true.
Proof.
  intros Hne Hnum. apply isearr_objects; [exact Hne|].
  intros v Hv. exact (valid_has_entries isnum_null key v (Hnum v Hv)).
Qed.


Section Keys.

Variables keyDepth keyDepthStart keyDepthEnd : string.

Local Abbreviation valid := (fun v => isnum (get v keyDepth JNull) = true).
Local Abbreviation below :=
  (fun a b => PrimFloat.ltb (cdbl (get a keyDepth JNull)) (cdbl (get b keyDepth JNull)) = true).
Local Abbreviation upto :=
  (fun a b => PrimFloat.leb (cdbl (get a keyDepth JNull)) (cdbl (get b keyDepth JNull)) = true).
Local Abbreviation inside := (depthIn keyDepth keyDepthStart keyDepthEnd).

(** On a pool in increasing depth, the scan for a range finds the
    samples that lie in the range, and [pullAt] leaves the others. *)
Lemma detect_spec (r : jsval) (ts : list jsval) :
  forall kt,
    Forall valid ts -> StronglySorted below ts ->
    exists idxs,
      detect keyDepth (cdbl (get r keyDepthStart JNull)) (cdbl (get r keyDepthEnd JNull)) kt ts
        = Ok (idxs, filter (inside r) ts) /\
      pullAt_from kt ts idxs = filter (fun t => negb (inside r t)) ts /\
      Forall (fun i => (kt <= i)%nat) idxs.
Proof.
  induction ts as [|t ts IH]; intros kt Hv Hs.
  - exists []. simpl. auto.
  - inversion Hv as [|? ? Ht Hv']; subst. inversion Hs as [|? ? Hs' Hlater]; subst.
    cbn [detect]. rewrite (member_valid isnum_null keyDepth t Ht). cbn [bind].
    rewrite (cdbl_ToNumber _ Ht).
    change (num_ge (cdbl (get t keyDepth JNull)) (cdbl (get r keyDepthStart JNull)) &&
            num_le (cdbl (get t keyDepth JNull)) (cdbl (get r keyDepthEnd JNull)))
      with (inside r t).
    destruct (num_gt (cdbl (get t keyDepth JNull)) (cdbl (get r keyDepthEnd JNull))) eqn:Egt.
    + assert (Hout : forall s, In s (t :: ts) -> inside r s = false).
      { intros s [<-|Hin]; unfold depthIn; apply andb_false_iff; right; unfold num_le, num_gt in *.
        - destruct (PrimFloat.leb _ _) eqn:E; [|reflexivity].
          apply le_not_gt in E. congruence.
        - rewrite Forall_forall in Hlater. now apply gt_end_later with (cdbl (get t keyDepth JNull)); [|apply Hlater]. }
      destruct (filter_none (inside r) (t :: ts) Hout) as [-> ->].
      rewrite (Hout t) by (simpl; auto).
      exists []. split; [reflexivity|]. split; [apply pullAt_from_none | constructor].
    + destruct (IH (S kt) Hv' Hs') as (idxs & -> & Hpull & Hge). cbn [bind fst snd].
      simpl filter. destruct (inside r t) eqn:Ein; cbn [negb].
      * exists (kt :: idxs). split; [reflexivity|]. split.
        -- cbn [pullAt_from existsb]. rewrite Nat.eqb_refl. cbn [orb].
           rewrite pullAt_from_passed by lia. exact Hpull.
        -- constructor; [lia|]. eapply Forall_impl; [|exact Hge]. simpl. intros; lia.
      * exists idxs. split; [reflexivity|]. split.
        -- cbn [pullAt_from]. rewrite existsb_eqb_ahead by exact Hge. now rewrite Hpull.
        -- eapply Forall_impl; [|exact Hge]. simpl. intros; lia.
Qed.

Lemma valid_filter (f : jsval -> bool) (ts : list jsval) :
  Forall valid ts -> Forall valid (filter f ts).
Proof.
  rewrite !Forall_forall. intros H v Hv. apply filter_In in Hv. apply H. tauto.
Qed.

(** The loop over the ranges: the groups are the ranges, each with its
    claimed samples under "rows". *)
Lemma groupRanges_spec (rs : list jsval) :
  forall ts,
    Forall valid ts -> StronglySorted below ts ->
    Forall (fun r => exists ps, r = JObj ps) rs ->
    exists groups,
      groupRangesOwn keyDepth keyDepthStart keyDepthEnd rs ts = Ok groups /\
      map rowsOf groups = claimed inside rs ts /\
      Forall2 (fun r g => exists ps, r = JObj ps /\
                 g = JObj (assign "rows" (JArr (rowsOf g)) ps)) rs groups.
Proof.
  induction rs as [|r rs IH]; intros ts Hv Hs Hobj.
  - exists []. simpl. auto.
  - inversion Hobj as [|? ? [ps ->] Hobj']; subst.
    destruct (detect_spec (JObj ps) ts 0 Hv Hs) as (idxs & Hdet & Hpull & _).
    cbn [groupRangesOwn]. rewrite Hdet. cbn [bind fst snd setProp]. unfold cloneDeep.
    unfold pullAt. rewrite Hpull.
    destruct (IH (filter (fun t => negb (inside (JObj ps) t)) ts)) as (groups & -> & Hrows & Hall).
    + now apply valid_filter.
    + now apply StronglySorted_filter.
    + assumption.
    + cbn [bind]. eexists. split; [reflexivity|].
      assert (Hr : rowsOf (JObj (assign "rows" (JArr (filter (inside (JObj ps)) ts)) ps))
                   = filter (inside (JObj ps)) ts).
      { unfold rowsOf. now rewrite get_assign_arr. }
      split.
      * cbn [map claimed]. now rewrite Hr, Hrows.
      * constructor; [|assumption]. exists ps. split; [reflexivity|]. now rewrite Hr.
Qed.


Lemma valid_ranges (rs : list jsval) :
  rangeNumberErrs keyDepthStart keyDepthEnd rs = [] ->
  rangeOrderErrs keyDepthStart keyDepthEnd rs = [] ->
  forall r, In r rs ->
    isnum (get r keyDepthStart JNull) = true /\
    isnum (get r keyDepthEnd JNull) = true /\
    num_gt (cdbl (get r keyDepthStart JNull)) (cdbl (get r keyDepthEnd JNull)) = false.
Proof.
  intros Hn Ho r Hin. destruct (In_nth_error _ _ Hin) as [i Hi].
  unfold rangeNumberErrs in Hn. rewrite each_nil in Hn. specialize (Hn i r Hi).
  unfold rangeOrderErrs in Ho. rewrite each_nil in Ho. specialize (Ho i r Hi).
  cbv beta zeta in Hn, Ho.
  apply app_eq_nil in Hn. destruct Hn as [Hs He].
  apply app_eq_nil in Ho. destruct Ho as [Ho _].
  destruct (isnum (get r keyDepthStart JNull)); [|discriminate].
  destruct (isnum (get r keyDepthEnd JNull)); [|discriminate].
  destruct (num_gt _ _); [discriminate|]. auto.
Qed.

(** On a pool in ascending depth, the scan for a range finds the samples
    that lie in the range, and [pullAt] leaves the others. *)
Lemma detect_ascending (r : jsval) (ts : list jsval) :
  forall kt,
    Forall valid ts -> StronglySorted upto ts ->
    exists idxs,
      detect keyDepth (cdbl (get r keyDepthStart JNull)) (cdbl (get r keyDepthEnd JNull)) kt ts
        = Ok (idxs, filter (inside r) ts) /\
      pullAt_from kt ts idxs = filter (fun t => negb (inside r t)) ts /\
      Forall (fun i => (kt <= i)%nat) idxs.
Proof.
  induction ts as [|t ts IH]; intros kt Hv Hs.
  - exists []. simpl. auto.
  - inversion Hv as [|? ? Ht Hv']; subst. inversion Hs as [|? ? Hs' Hlater]; subst.
    cbn [detect]. rewrite (member_valid isnum_null keyDepth t Ht). cbn [bind].
    rewrite (cdbl_ToNumber _ Ht).
    change (num_ge (cdbl (get t keyDepth JNull)) (cdbl (get r keyDepthStart JNull)) &&
            num_le (cdbl (get t keyDepth JNull)) (cdbl (get r keyDepthEnd JNull)))
      with (inside r t).
    destruct (num_gt (cdbl (get t keyDepth JNull)) (cdbl (get r keyDepthEnd JNull))) eqn:Egt.
    + assert (Hout : forall s, In s (t :: ts) -> inside r s = false).
      { intros s [<-|Hin]; unfold depthIn; apply andb_false_iff; right; unfold num_le, num_gt in *.
        - destruct (PrimFloat.leb _ _) eqn:E; [|reflexivity].
          apply le_not_gt in E. congruence.
        - rewrite Forall_forall in Hlater.
          now apply gt_end_later_leb with (cdbl (get t keyDepth JNull)); [|apply Hlater]. }
      destruct (filter_none (inside r) (t :: ts) Hout) as [-> ->].
      rewrite (Hout t) by (simpl; auto).
      exists []. split; [reflexivity|]. split; [apply pullAt_from_none | constructor].
    + destruct (IH (S kt) Hv' Hs') as (idxs & -> & Hpull & Hge). cbn [bind fst snd].
      simpl filter. destruct (inside r t) eqn:Ein; cbn [negb].
      * exists (kt :: idxs). split; [reflexivity|]. split.
        -- cbn [pullAt_from existsb]. rewrite Nat.eqb_refl. cbn [orb].
           rewrite pullAt_from_passed by lia. exact Hpull.
        -- constructor; [lia|]. eapply Forall_impl; [|exact Hge]. simpl. intros; lia.
      * exists idxs. split; [reflexivity|]. split.
        -- cbn [pullAt_from]. rewrite existsb_eqb_ahead by exact Hge. now rewrite Hpull.
        -- eapply Forall_impl; [|exact Hge]. simpl. intros; lia.
Qed.

(** The loop over the ranges on a pool in ascending depth. *)
Lemma groupRanges_ascending (rs : list jsval) :
  forall ts,
    Forall valid ts -> StronglySorted upto ts ->
    Forall (fun r => exists ps, r = JObj ps) rs ->
    exists groups,
      groupRangesOwn keyDepth keyDepthStart keyDepthEnd rs ts = Ok groups /\
      map rowsOf groups = claimed inside rs ts.
Proof.
  induction rs as [|r rs IH]; intros ts Hv Hs Hobj.
  - exists []. simpl. auto.
  - inversion Hobj as [|? ? [ps ->] Hobj']; subst.
    destruct (detect_ascending (JObj ps) ts 0 Hv Hs) as (idxs & Hdet & Hpull & _).
    cbn [groupRangesOwn]. rewrite Hdet. cbn [bind fst snd setProp]. unfold cloneDeep.
    unfold pullAt. rewrite Hpull.
    destruct (IH (filter (fun t => negb (inside (JObj ps) t)) ts)) as (groups & -> & Hrows).
    + rewrite !Forall_forall in *. intros v Hin. apply filter_In in Hin. apply Hv. tauto.
    + now apply StronglySorted_filter.
    + assumption.
    + cbn [bind]. eexists. split; [reflexivity|].
      cbn [map claimed]. rewrite Hrows. f_equal.
      unfold rowsOf. now rewrite get_assign_arr.
Qed.

End Keys.

(** What a call that returns has established, and what it returns. *)
Lemma groupBy_spec (rows depthStartAndEnds opt out : jsval) :
  let keyDepth := optKey opt "keyDepth" "depth" in
  let keyDepthStart := optKey opt "keyDepthStart" "depthStart" in
  let keyDepthEnd := optKey opt "keyDepthEnd" "depthEnd" in
  groupByDepthStartEnd rows depthStartAndEnds opt = Ok out ->
  exists srt groups,
    out = JArr groups /\
    Permutation srt (elements rows) /\
    Forall (fun v => isnum (get v keyDepth JNull) = true) srt /\
    StronglySorted (fun a b => PrimFloat.ltb (cdbl (get a keyDepth JNull))
                                             (cdbl (get b keyDepth JNull)) = true) srt /\
    (forall r, In r (rangesOf depthStartAndEnds) ->
       isnum (get r keyDepthStart JNull) = true /\
       isnum (get r keyDepthEnd JNull) = true /\
       num_gt (cdbl (get r keyDepthStart JNull)) (cdbl (get r keyDepthEnd JNull)) = false) /\
    map rowsOf groups =
      claimed (depthIn keyDepth keyDepthStart keyDepthEnd) (rangesOf depthStartAndEnds) srt /\
    Forall2 (fun r g => exists ps, r = JObj ps /\
               g = JObj (assign "rows" (JArr (rowsOf g)) ps))
      (rangesOf depthStartAndEnds) groups.
Proof.
  intros kd ks ke. rewrite groupBy_own. fold kd ks ke.
  destruct (isearr rows); cbn [negb]; [|discriminate].
  destruct (negb (isearr depthStartAndEnds) && negb (iseobj depthStartAndEnds)); [discriminate|].
  cbv zeta.
  destruct (0 <? List.length (depthErrs kd (elements rows)))%nat eqn:E1; [discriminate|].
  apply length_zero_nil in E1. rewrite E1. cbn [app].
  destruct (sortBy (elements rows) _) as [srt|] eqn:Esort; cbn [bind]; [|discriminate].
  destruct (0 <? List.length (checkDepth srt kd))%nat eqn:E2; [discriminate|].
  apply length_zero_nil in E2.
  destruct (0 <? List.length (rangeNumberErrs ks ke (rangesOf depthStartAndEnds)))%nat eqn:E3;
    [discriminate|].
  apply length_zero_nil in E3. rewrite E3. cbn [app].
  destruct (0 <? List.length (rangeOrderErrs ks ke (rangesOf depthStartAndEnds)))%nat eqn:E4;
    [discriminate|].
  apply length_zero_nil in E4.
  assert (Hperm := sortBy_perm _ _ _ Esort).
  assert (Hv : Forall (fun v => isnum (get v kd JNull) = true) srt).
  { apply Forall_forall. intros v Hin.
    assert (Hx := valid_rows kd _ E1). rewrite Forall_forall in Hx. apply Hx.
    now apply (Permutation_in _ Hperm). }
  assert (Hs := increasing_rows cdbl_not_nan kd srt Hv E2).
  assert (Hr := valid_ranges ks ke _ E3 E4).
  destruct (groupRanges_spec kd ks ke (rangesOf depthStartAndEnds) srt Hv Hs) as (groups & Hg & Hrows & Hall).
  { apply Forall_forall. intros r Hin. destruct (Hr r Hin) as (H1 & _).
    exact (valid_is_object isnum_null ks r H1). }
  rewrite Hg. cbn [bind]. intros H. injection H as <-.
  exists srt, groups. repeat split; try assumption; now apply Hr.
Qed.


Lemma groups_NoDup (rows depthStartAndEnds opt : jsval) (groups : list jsval) :
  groupByDepthStartEnd rows depthStartAndEnds opt = Ok (JArr groups) ->
  NoDup (List.concat (map rowsOf groups)).
Proof.
  intros H. destruct (groupBy_spec _ _ _ _ H) as (srt & groups' & Heq & _ & _ & Hs & _ & Hrows & _).
  injection Heq as <-. rewrite Hrows. apply claimed_NoDup.
  eapply StronglySorted_NoDup; [|exact Hs].
  intros a Ha. cbv beta in Ha. rewrite ltb_irrefl in Ha. discriminate.
Qed.

(** C10.  The sample lists of the groups of a call that returns are
    pairwise disjoint: no sample is in the lists of two groups. *)
Theorem groups_pairwise_disjoint (rows depthStartAndEnds opt : jsval) (groups : list jsval) :
  groupByDepthStartEnd rows depthStartAndEnds opt = Ok (JArr groups) ->
  forall i j s,
    i <> j ->
    In s (rowsOf (nth i groups JUndefined)) ->
    ~ In s (rowsOf (nth j groups JUndefined)).
Proof.
  intros H i j s Hij Hi Hj. apply Hij.
  apply (NoDup_concat_nth (map rowsOf groups) (groups_NoDup _ _ _ _ H) i j s);
    now rewrite nth_map_rowsOf.
Qed.





(** One group for every target range, in the given order: the range with
    its own fields, and the list of its samples under "rows". *)
Lemma groups_are_ranges_with_rows (rows depthStartAndEnds opt : jsval) (groups : list jsval) :
  groupByDepthStartEnd rows depthStartAndEnds opt = Ok (JArr groups) ->
  List.length groups = List.length (rangesOf depthStartAndEnds) /\
  forall j r g,
    nth_error (rangesOf depthStartAndEnds) j = Some r -> nth_error groups j = Some g ->
    (exists l, get g "rows" JUndefined = JArr l) /\
    (forall key dflt, key <> "rows"%string -> get g key dflt = get r key dflt).
Proof.
  intros H.
  destruct (groupBy_spec _ _ _ _ H) as (srt & groups' & Heq & _ & _ & _ & _ & _ & Hall).
  injection Heq as <-. split.
  - symmetry. eapply Forall2_length; eassumption.
  - clear H. revert Hall. generalize (rangesOf depthStartAndEnds). intros rs Hall.
    induction Hall as [|r g rs gs (ps & -> & Hg) _ IH]; intros j r' g' Hr Hg'.
    + destruct j; discriminate.
    + destruct j as [|j]; simpl in Hr, Hg'; [|exact (IH j r' g' Hr Hg')].
      injection Hr as <-. injection Hg' as <-. rewrite Hg. split.
      * eexists. apply get_assign_arr.
      * intros key dflt Hk. apply get_assign_other. congruence.
Qed.

(** A call whose arguments pass every check returns its groups. *)
Lemma groupBy_returns (xs : list jsval) (depthStartAndEnds opt : jsval) :
  let keyDepth := optKey opt "keyDepth" "depth" in
  let keyDepthStart := optKey opt "keyDepthStart" "depthStart" in
  let keyDepthEnd := optKey opt "keyDepthEnd" "depthEnd" in
  xs <> [] ->
  isearr depthStartAndEnds = true \/ iseobj depthStartAndEnds = true ->
  (forall v, In v xs -> isnum (get v keyDepth JNull) = true) ->
  (forall srt,
      sortBy xs (fun v => x <- member v keyDepth ;; Ok (cdbl x)) = Ok srt ->
      forall k, (S k < List.length srt)%nat ->
        PrimFloat.ltb (nth k (depthsOf keyDepth srt) 0%float)
                      (nth (S k) (depthsOf keyDepth srt) 0%float) = true) ->
  (forall r, In r (rangesOf depthStartAndEnds) ->
      isnum (get r keyDepthStart JNull) = true /\
      isnum (get r keyDepthEnd JNull) = true /\
      num_gt (cdbl (get r keyDepthStart JNull)) (cdbl (get r keyDepthEnd JNull)) = false) ->
  (forall k r0 r1,
      nth_error (rangesOf depthStartAndEnds) k = Some r0 ->
      nth_error (rangesOf depthStartAndEnds) (S k) = Some r1 ->
      num_gt (cdbl (get r0 keyDepthEnd JNull)) (cdbl (get r1 keyDepthStart JNull)) = false) ->
  exists groups, groupByDepthStartEnd (JArr xs) depthStartAndEnds opt = Ok (JArr groups).
Proof.
  intros kd ks ke Hne Hshape Hnum Hinc Hr Hseq.
  rewrite groupBy_own. fold kd ks ke.
  assert (Hearr : isearr (JArr xs) = true) by exact (isearr_rows kd xs Hne Hnum).
  rewrite Hearr. cbn [negb].
  replace (negb (isearr depthStartAndEnds) && negb (iseobj depthStartAndEnds)) with false
    by (destruct Hshape as [-> | ->]; [reflexivity | now rewrite andb_false_r]).
  cbv zeta. cbn [elements].
  assert (He1 : depthErrs kd xs = []).
  { unfold depthErrs. apply each_nil. intros i v Hn.
    rewrite (Hnum v (nth_error_In _ _ Hn)). reflexivity. }
  rewrite He1. cbn [List.length Nat.ltb Nat.leb app].
  destruct (sortBy_total xs (fun v => x <- member v kd ;; Ok (cdbl x))) as [srt Hsort].
  { intros v Hv. rewrite (member_valid isnum_null kd v (Hnum v Hv)). simpl. eauto. }
  rewrite Hsort. cbn [bind].
  assert (He2 : checkDepth srt kd = []) by (apply checkDepth_nil; now apply Hinc).
  rewrite He2. cbn [List.length Nat.ltb Nat.leb].
  assert (He3 : rangeNumberErrs ks ke (rangesOf depthStartAndEnds) = []).
  { unfold rangeNumberErrs. apply each_nil. intros i r Hn.
    destruct (Hr r (nth_error_In _ _ Hn)) as (-> & -> & _). reflexivity. }
  rewrite He3. cbn [List.length Nat.ltb Nat.leb app].
  assert (He4 : rangeOrderErrs ks ke (rangesOf depthStartAndEnds) = []).
  { unfold rangeOrderErrs. apply each_nil. intros i r Hn. cbv zeta.
    destruct (Hr r (nth_error_In _ _ Hn)) as (_ & _ & ->). cbn [app].
    destruct i as [|i]; [reflexivity|].
    change (S i =? 0)%nat with false. cbv iota. rewrite getAt_pred.
    assert (Hi : (i < List.length (rangesOf depthStartAndEnds))%nat).
    { assert (S i < List.length (rangesOf depthStartAndEnds))%nat
        by (apply nth_error_Some; congruence). lia. }
    destruct (nth_error (rangesOf depthStartAndEnds) i) as [r0|] eqn:E0;
      [|apply nth_error_None in E0; lia].
    rewrite (nth_error_nth_js _ _ _ E0). now rewrite (Hseq i r0 r E0 Hn). }
  rewrite He4. cbn [List.length Nat.ltb Nat.leb].
  assert (Hperm := sortBy_perm _ _ _ Hsort).
  assert (Hv : Forall (fun v => isnum (get v kd JNull) = true) srt).
  { apply Forall_forall. intros v Hin. apply Hnum. now apply (Permutation_in _ Hperm). }
  destruct (groupRanges_spec kd ks ke (rangesOf depthStartAndEnds) srt Hv
              (increasing_rows cdbl_not_nan kd srt Hv He2)) as (groups & -> & _).
  { apply Forall_forall. intros r Hin. destruct (Hr r Hin) as (H1 & _).
    exact (valid_is_object isnum_null ks r H1). }
  cbn [bind]. eauto.
Qed.

(** The call on samples that pass the first check: its sort, and the
    checks and the loop that follow. *)
Lemma groupBy_after_validation (rows depthStartAndEnds opt : jsval) :
  let keyDepth := optKey opt "keyDepth" "depth" in
  let keyDepthStart := optKey opt "keyDepthStart" "depthStart" in
  let keyDepthEnd := optKey opt "keyDepthEnd" "depthEnd" in
  let rs := rangesOf depthStartAndEnds in
  isearr rows = true ->
  isearr depthStartAndEnds = true \/ iseobj depthStartAndEnds = true ->
  (forall v, In v (elements rows) -> isnum (get v keyDepth JNull) = true) ->
  exists srt,
    sortBy (elements rows) (fun v => x <- member v keyDepth ;; Ok (cdbl x)) = Ok srt /\
    groupByDepthStartEnd rows depthStartAndEnds opt =
      if (0 <? List.length (checkDepth srt keyDepth))%nat
      then Throw (Error (Joined ", " (checkDepth srt keyDepth)))
      else if (0 <? List.length (rangeNumberErrs keyDepthStart keyDepthEnd rs))%nat
      then Throw (Error (Joined "; " (rangeNumberErrs keyDepthStart keyDepthEnd rs)))
      else if (0 <? List.length (rangeOrderErrs keyDepthStart keyDepthEnd rs))%nat
      then Throw (Error (Joined "; " (rangeOrderErrs keyDepthStart keyDepthEnd rs)))
      else
        groups <- groupRangesOwn keyDepth keyDepthStart keyDepthEnd rs srt ;;
        Ok (JArr groups).
Proof.
  intros kd ks ke rs Hearr Hshape Hnum.
  destruct (sortBy_total (elements rows) (fun v => x <- member v kd ;; Ok (cdbl x)))
    as [srt Hsort].
  { intros v Hv. rewrite (criterion_of_number isnum_null kd v (Hnum v Hv)). eauto. }
  exists srt. split; [exact Hsort|].
  rewrite groupBy_own. fold kd ks ke.
  rewrite Hearr. cbn [negb].
  replace (negb (isearr depthStartAndEnds) && negb (iseobj depthStartAndEnds)) with false
    by (destruct Hshape as [-> | ->]; [reflexivity | now rewrite andb_false_r]).
  cbv zeta. fold rs.
  assert (He1 : depthErrs kd (elements rows) = []).
  { unfold depthErrs. apply each_nil. intros i v Hn.
    rewrite (Hnum v (nth_error_In _ _ Hn)). reflexivity. }
  rewrite He1. change (0 <? List.length (@nil violation))%nat with false. cbv iota.
  cbn [app]. rewrite Hsort. cbn [bind].
  destruct (0 <? List.length (checkDepth srt kd))%nat; [reflexivity|].
  destruct (0 <? List.length (rangeNumberErrs ks ke rs))%nat eqn:E3; [reflexivity|].
  apply length_zero_nil in E3. rewrite E3. cbn [app]. reflexivity.
Qed.

(** What a call that returns has established, and what it returns. *)
Lemma groupBy_ok_inv (rows depthStartAndEnds opt out : jsval) :
  let keyDepth := optKey opt "keyDepth" "depth" in
  let keyDepthStart := optKey opt "keyDepthStart" "depthStart" in
  let keyDepthEnd := optKey opt "keyDepthEnd" "depthEnd" in
  let rs := rangesOf depthStartAndEnds in
  groupByDepthStartEnd rows depthStartAndEnds opt = Ok out ->
  isearr rows = true /\
  (isearr depthStartAndEnds = true \/ iseobj depthStartAndEnds = true) /\
  depthErrs keyDepth (elements rows) = [] /\
  rangeNumberErrs keyDepthStart keyDepthEnd rs = [] /\
  rangeOrderErrs keyDepthStart keyDepthEnd rs = [] /\
  exists srt groups,
    out = JArr groups /\
    Permutation srt (elements rows) /\
    StronglySorted (fun a b => PrimFloat.leb (cdbl (get a keyDepth JNull))
                                             (cdbl (get b keyDepth JNull)) = true) srt /\
    map rowsOf groups = claimed (depthIn keyDepth keyDepthStart keyDepthEnd) rs srt.
Proof.
  intros kd ks ke rs. rewrite groupBy_own. fold kd ks ke.
  destruct (isearr rows) eqn:Hearr; cbn [negb]; [|discriminate].
  destruct (negb (isearr depthStartAndEnds) && negb (iseobj depthStartAndEnds)) eqn:Hshape;
    [discriminate|].
  cbv zeta. fold rs.
  destruct (0 <? List.length (depthErrs kd (elements rows)))%nat eqn:E1; [discriminate|].
  apply length_zero_nil in E1. rewrite E1. cbn [app].
  destruct (sortBy (elements rows) _) as [srt|] eqn:Esort; cbn [bind]; [|discriminate].
  destruct (0 <? List.length (checkDepth srt kd))%nat eqn:E2; [discriminate|].
  destruct (0 <? List.length (rangeNumberErrs ks ke rs))%nat eqn:E3; [discriminate|].
  apply length_zero_nil in E3. rewrite E3. cbn [app].
  destruct (0 <? List.length (rangeOrderErrs ks ke rs))%nat eqn:E4; [discriminate|].
  apply length_zero_nil in E4.
  assert (Hperm := sortBy_perm _ _ _ Esort).
  assert (Hx := valid_rows kd _ E1). rewrite Forall_forall in Hx.
  assert (Hv : Forall (fun v => isnum (get v kd JNull) = true) srt).
  { apply Forall_forall. intros v Hin. apply Hx. now apply (Permutation_in _ Hperm). }
  assert (Hs := sortBy_ascending isnum_null cdbl_not_nan kd _ _ Hx Esort).
  assert (Hr := valid_ranges ks ke _ E3 E4).
  destruct (groupRanges_ascending kd ks ke rs srt Hv Hs) as (groups & Hg & Hrows).
  { apply Forall_forall. intros r Hin. destruct (Hr r Hin) as (H1 & _).
    exact (valid_is_object isnum_null ks r H1). }
  rewrite Hg. cbn [bind]. intros H. injection H as <-.
  split; [reflexivity|]. split.
  { apply andb_false_iff in Hshape.
    destruct Hshape as [H|H]; apply negb_false_iff in H; auto. }
  split; [reflexivity|]. split; [reflexivity|]. split; [assumption|].
  exists srt, groups. auto.
Qed.


(** The samples of every group are listed in ascending order of depth,
    whatever the order in which the samples were given. *)
Theorem group_rows_ascending (rows depthStartAndEnds opt : jsval) (groups : list jsval) (j : nat) :
  let keyDepth := optKey opt "keyDepth" "depth" in
  groupByDepthStartEnd rows depthStartAndEnds opt = Ok (JArr groups) ->
  StronglySorted (fun a b => PrimFloat.leb (cdbl (get a keyDepth JNull))
                                           (cdbl (get b keyDepth JNull)) = true)
    (rowsOf (nth j groups JUndefined)).
Proof.
  intros kd H.
  destruct (groupBy_ok_inv _ _ _ _ H) as (_ & _ & _ & _ & _ & srt & groups' & Heq & _ & Hs & Hrows).
  injection Heq as <-. fold kd in Hs, Hrows.
  rewrite <- nth_map_rowsOf, Hrows. now apply claimed_sorted.
Qed.



(** The order in which the samples are given does not matter: on
    samples with distinct numeric depths, a permutation of the samples
    gives the same result, for any ranges. *)
Theorem groupBy_order_independent (xs ys : list jsval) (depthStartAndEnds opt : jsval) :
  let keyDepth := optKey opt "keyDepth" "depth" in
  Permutation xs ys ->
  (forall v, In v xs -> isnum (get v keyDepth JNull) = true) ->
  ForallOrdPairs (fun a b => PrimFloat.eqb (cdbl (get a keyDepth JNull))
                                           (cdbl (get b keyDepth JNull)) = false) xs ->
  groupByDepthStartEnd (JArr ys) depthStartAndEnds opt =
  groupByDepthStartEnd (JArr xs) depthStartAndEnds opt.
Proof.
  intros kd Hp Hnum Hd.
  destruct xs as [|x xs].
  { apply Permutation_nil in Hp. now subst. }
  assert (Hney : ys <> []).
  { intros ->. apply Permutation_sym, Permutation_nil in Hp. discriminate. }
  assert (Hnumy : forall v, In v ys -> isnum (get v kd JNull) = true).
  { intros v Hv. apply Hnum. now apply (Permutation_in _ (Permutation_sym Hp)). }
  assert (Hex : isearr (JArr (x :: xs)) = true)
    by exact (isearr_rows kd (x :: xs) ltac:(discriminate) Hnum).
  assert (Hey : isearr (JArr ys) = true) by exact (isearr_rows kd ys Hney Hnumy).
  destruct (negb (isearr depthStartAndEnds) && negb (iseobj depthStartAndEnds)) eqn:Hshape.
  { rewrite !groupBy_own. now rewrite Hshape, Hex, Hey. }
  assert (Hshape' : isearr depthStartAndEnds = true \/ iseobj depthStartAndEnds = true).
  { apply andb_false_iff in Hshape.
    destruct Hshape as [H|H]; apply negb_false_iff in H; auto. }
  destruct (groupBy_after_validation (JArr (x :: xs)) depthStartAndEnds opt
              Hex Hshape' Hnum) as (sx & Hsx & ->).
  destruct (groupBy_after_validation (JArr ys) depthStartAndEnds opt Hey Hshape' Hnumy)
    as (sy & Hsy & ->).
  cbn [elements] in Hsx, Hsy. fold kd in Hsx, Hsy.
  now rewrite (sortBy_one_order isnum_null cdbl_not_nan kd _ _ _ _ Hp Hnum Hd Hsx Hsy).
Qed.



End GroupByDepthStartEnd.

(** * The reference collaborators, and the functions on examples *)

Local Open Scope string_scope.

Lemma ref_isnum_null : @isnum ref JNull = false.
Proof. reflexivity. Qed.

Lemma ref_cdbl_idem (v : jsval) :
  @isnum ref v = true ->
  @isnum ref (JNum (@cdbl ref v)) = true /\ @cdbl ref (JNum (@cdbl ref v)) = @cdbl ref v.
Proof.
  destruct v; simpl; try discriminate. intros H. rewrite H. simpl. rewrite H. auto.
Qed.

Lemma ref_cdbl_ToNumber (v : jsval) : @isnum ref v = true -> @ToNumber ref v = @cdbl ref v.
Proof.
  destruct v; simpl; try discriminate. intros H. now rewrite H.
Qed.

Lemma ref_cdbl_not_nan (v : jsval) :
  @isnum ref v = true -> PrimFloat.is_nan (@cdbl ref v) = false.
Proof.
  destruct v; simpl; try discriminate. intros H. rewrite H.
  unfold PrimFloat.is_finite in H. destruct (PrimFloat.is_nan x); [discriminate | reflexivity].
Qed.

Lemma ref_isearr_objects (xs : list jsval) :
  xs <> [] -> (forall v, In v xs -> exists p ps, v = JObj (p :: ps)) ->
  @isearr ref (JArr xs) = true.
Proof.
  intros Hne Hobj. destruct xs as [|x [|y xs]]; [contradiction| |reflexivity].
  destruct (Hobj x (or_introl eq_refl)) as (q & ps & ->). reflexivity.
Qed.

Lemma ref_isearr_elements (v : jsval) : @isearr ref v = true -> elements v <> [].
Proof.
  destruct v as [| | | | |[|x xs]|]; simpl; discriminate.
Qed.

Lemma plainName_no_dot (s : string) :
  plainName s = true ->
  forallb (fun c => negb (Ascii.eqb c "."%char)) (list_ascii_of_string s) = true.
Proof.
  unfold plainName. induction s as [|c s IH]; simpl; [reflexivity|].
  destruct (Ascii.eqb c "."%char); simpl; [discriminate|].
  intros H. apply andb_true_iff in H. now apply IH.
Qed.

Lemma stringToPath_ref_name (s : string) :
  forallb (fun c => negb (Ascii.eqb c "."%char)) (list_ascii_of_string s) = true ->
  stringToPath_ref s = [s].
Proof.
  induction s as [|c s IH]; simpl; [reflexivity|].
  destruct (Ascii.eqb c "."%char); simpl; [discriminate|].
  intros H. now rewrite (IH H).
Qed.

Lemma stringToPath_ref_dot (a b : string) :
  forallb (fun c => negb (Ascii.eqb c "."%char)) (list_ascii_of_string a) = true ->
  stringToPath_ref (a ++ String "."%char b) = a :: stringToPath_ref b.
Proof.
  induction a as [|c a IH]; simpl; [reflexivity|].
  destruct (Ascii.eqb c "."%char); simpl; [discriminate|].
  intros H. now rewrite (IH H).
Qed.

Lemma index_no_dot (k : nat) :
  forallb (fun c => negb (Ascii.eqb c "."%char)) (list_ascii_of_string (index k)) = true.
Proof.
  unfold index. generalize (Nat.to_uint k). intros u.
  induction u; simpl; auto.
Qed.

Lemma ref_path_of_name (i : nat) (name : string) :
  plainName name = true ->
  @stringToPath ref (index i ++ "." ++ name) = [index i; name].
Proof.
  intros H. simpl. rewrite (stringToPath_ref_dot _ _ (index_no_dot i)).
  now rewrite (stringToPath_ref_name _ (plainName_no_dot _ H)).
Qed.



(** Scenario 1 of the specification: centre depths 0, 6, 20. *)
Example calc_0_6_20 :
  @calcDepthStartEndFromCenter ref (JArr [sample 0; sample 6; sample 20]) JUndefined =
  Ok (JArr [JObj [("depth", JNum 0); ("depthStart", JNum 0); ("depthEnd", JNum 3)];
            JObj [("depth", JNum 6); ("depthStart", JNum 3); ("depthEnd", JNum 13)];
            JObj [("depth", JNum 20); ("depthStart", JNum 13); ("depthEnd", JNum 20)]]).
Proof. vm_compute. reflexivity. Qed.

(** Scenario 2: centre depths 4, 6, 20, given out of order. *)
Example calc_4_6_20 :
  @calcDepthStartEndFromCenter ref (JArr [sample 20; sample 4; sample 6]) JUndefined =
  Ok (JArr [JObj [("depth", JNum 4); ("depthStart", JNum 0); ("depthEnd", JNum 5)];
            JObj [("depth", JNum 6); ("depthStart", JNum 5); ("depthEnd", JNum 13)];
            JObj [("depth", JNum 20); ("depthStart", JNum 13); ("depthEnd", JNum 20)]]).
Proof. vm_compute. reflexivity. Qed.

(** Scenario 4: contiguous intervals have no violation. *)
Example check_contiguous :
  @checkDepthStartEnd ref (JArr [range 0 5; range 5 10; range 10 20]) JUndefined = Ok [].
Proof. vm_compute. reflexivity. Qed.

(** Scenario 5: a gap is one violation. *)
Example check_gap :
  @checkDepthStartEnd ref (JArr [range 0 5; range 10 20]) JUndefined =
  Ok [EndNotNextStart 1 "depthEnd" 5 2 "depthStart" 10].
Proof. vm_compute. reflexivity. Qed.

(** Scenario 6: the sample at the shared boundary 1 goes to the first
    range, the sample at 10 to no group. *)
Example group_0_1_3_10 :
  @groupByDepthStartEnd ref (JArr [sample 0; sample 1; sample 3; sample 10])
    (JArr [range 0 1; range 1 4]) JUndefined =
  Ok (JArr [JObj [("depthStart", JNum 0); ("depthEnd", JNum 1);
                  ("rows", JArr [sample 0; sample 1])];
            JObj [("depthStart", JNum 1); ("depthEnd", JNum 4);
                  ("rows", JArr [sample 3])]]).
Proof. vm_compute. reflexivity. Qed.

(** C1.  The option keyGroup is not read: with keyGroup "samples" the
    sample lists are still under "rows", and nothing is under "samples". *)
Theorem groupBy_keyGroup_not_read :
  exists g0 g1,
    @groupByDepthStartEnd ref (JArr [sample 0; sample 1; sample 3; sample 10])
      (JArr [range 0 1; range 1 4]) (JObj [("keyGroup"%string, JStr "samples")]) =
    Ok (JArr [g0; g1]) /\
    get g0 "rows" JUndefined = JArr [sample 0; sample 1] /\
    get g1 "rows" JUndefined = JArr [sample 3] /\
    get g0 "samples" JUndefined = JUndefined /\
    get g1 "samples" JUndefined = JUndefined.
Proof.
  do 2 eexists. split; [vm_compute; reflexivity|]. repeat split.
Qed.

(** A depth field named by a path: the first check reads the field of
    that name, the second check reads the depth of the row before along
    the path, finds nothing, and rejects increasing depths. *)
Example calc_throws_on_path_key :
  @calcDepthStartEndFromCenter ref
    (JArr [JObj [("a.b", JNum (-2))]; JObj [("a.b", JNum (-1))]])
    (JObj [("keyDepth", JStr "a.b")]) =
  Throw (Error (Joined "; " [DepthNotIncreasing 0 "a.b" 0 1 (-1)])).
Proof. vm_compute. reflexivity. Qed.

(** A depth field named by a path through the start field: the first
    call returns its rows and writes a number over the object the path
    went through, and a second call on these rows is rejected. *)
Example calc_not_idempotent_on_a_path :
  exists out,
    @calcDepthStartEndFromCenter ref
      (JArr [JObj [("depthStart.x", JNum (-2)); ("depthStart", JObj [("x", JNum (-5))])];
             JObj [("depthStart.x", JNum (-1))]])
      (JObj [("keyDepth", JStr "depthStart.x")]) = Ok (JArr out) /\
    @calcDepthStartEndFromCenter ref (JArr out) (JObj [("keyDepth", JStr "depthStart.x")]) =
    Throw (Error (Joined "; " [DepthNotIncreasing 0 "depthStart.x" 0 1 (-1)])).
Proof.
  eexists. split; vm_compute; reflexivity.
Qed.

(** An array of the one entry null is no array of entries: the validator
    answers it with the empty list. *)
Example check_single_null :
  @checkDepthStartEnd ref (JArr [JNull]) JUndefined = Ok [].
Proof. vm_compute. reflexivity. Qed.

(** C6.  The validator throws: given a row that is null after a row
    that is an interval, the criterion of the sort reads a property of
    null, and the call ends in a [TypeError] instead of a list, under
    every configuration. *)
Theorem checkDepthStartEnd_throws_on_null_row (opt : jsval) :
  @checkDepthStartEnd ref (JArr [range 0 5; JNull]) opt = Throw TypeError.
Proof.
  unfold checkDepthStartEnd. cbn [isearr ref isearr_ref negb elements]. cbv zeta.
  unfold sortBy. cbn [mapM member range].
  destruct (lookup _ _); reflexivity.
Qed.



(** ** The theorems at concrete inputs *)

Lemma checkDepthStartEnd_no_rows_empty_array :
  @isearr ref (JArr []) = false /\ @checkDepthStartEnd ref (JArr []) JUndefined = Ok [].
Proof.
  split; [reflexivity | apply (@checkDepthStartEnd_no_rows ref); reflexivity].
Defined.

















Lemma groups_disjoint_0_1_3_10 :
  In (sample 0) (rowsOf (nth 0
      [JObj [("depthStart", JNum 0); ("depthEnd", JNum 1); ("rows", JArr [sample 0; sample 1])];
       JObj [("depthStart", JNum 1); ("depthEnd", JNum 4); ("rows", JArr [sample 3])]]
      JUndefined)) /\
  ~ In (sample 0) (rowsOf (nth 1
      [JObj [("depthStart", JNum 0); ("depthEnd", JNum 1); ("rows", JArr [sample 0; sample 1])];
       JObj [("depthStart", JNum 1); ("depthEnd", JNum 4); ("rows", JArr [sample 3])]]
      JUndefined)).
Proof.
  assert (H : In (sample 0) (rowsOf (nth 0
      [JObj [("depthStart", JNum 0); ("depthEnd", JNum 1); ("rows", JArr [sample 0; sample 1])];
       JObj [("depthStart", JNum 1); ("depthEnd", JNum 4); ("rows", JArr [sample 3])]]
      JUndefined))) by (simpl; auto).
  split; [exact H|].
  apply (@groups_pairwise_disjoint ref ref_isnum_null ref_cdbl_ToNumber ref_cdbl_not_nan
           (JArr [sample 0; sample 1; sample 3; sample 10]) (JArr [range 0 1; range 1 4])
           JUndefined _ group_0_1_3_10 0%nat 1%nat (sample 0)).
  - discriminate.
  - exact H.
Defined.

(** ** More on the three functions *)

(** Of the configuration, [groupByDepthStartEnd] reads the three depth
    keys and nothing else: two configurations that agree on them give
    the same result. *)
Lemma groupBy_reads_three_keys {C : Collaborators} (rows depthStartAndEnds opt opt' : jsval) :
  optKey opt "keyDepth" "depth" = optKey opt' "keyDepth" "depth" ->
  optKey opt "keyDepthStart" "depthStart" = optKey opt' "keyDepthStart" "depthStart" ->
  optKey opt "keyDepthEnd" "depthEnd" = optKey opt' "keyDepthEnd" "depthEnd" ->
  groupByDepthStartEnd rows depthStartAndEnds opt =
  groupByDepthStartEnd rows depthStartAndEnds opt'.
Proof.
  intros H1 H2 H3. unfold groupByDepthStartEnd, groupChecked. now rewrite H1, H2, H3.
Qed.

Lemma groupBy_same_with_keyGroup :
  @groupByDepthStartEnd ref (JArr [sample 0; sample 1; sample 3; sample 10])
    (JArr [range 0 1; range 1 4]) (JObj [("keyGroup", JStr "samples")]) =
  @groupByDepthStartEnd ref (JArr [sample 0; sample 1; sample 3; sample 10])
    (JArr [range 0 1; range 1 4]) JUndefined.
Proof.
  apply (@groupBy_reads_three_keys ref); reflexivity.
Defined.

Lemma groups_are_ranges_0_1_3_10 :
  List.length
    [JObj [("depthStart", JNum 0); ("depthEnd", JNum 1); ("rows", JArr [sample 0; sample 1])];
     JObj [("depthStart", JNum 1); ("depthEnd", JNum 4); ("rows", JArr [sample 3])]] =
  List.length (rangesOf (JArr [range 0 1; range 1 4])) /\
  forall j r g,
    nth_error (rangesOf (JArr [range 0 1; range 1 4])) j = Some r ->
    nth_error
      [JObj [("depthStart", JNum 0); ("depthEnd", JNum 1); ("rows", JArr [sample 0; sample 1])];
       JObj [("depthStart", JNum 1); ("depthEnd", JNum 4); ("rows", JArr [sample 3])]] j = Some g ->
    (exists l, get g "rows" JUndefined = JArr l) /\
    (forall key dflt, key <> "rows" -> get g key dflt = get r key dflt).
Proof.
  exact (@groups_are_ranges_with_rows ref ref_isnum_null ref_cdbl_ToNumber ref_cdbl_not_nan
           _ _ _ _ group_0_1_3_10).
Defined.


Lemma checkDepthStartEnd_returns_on_gap :
  exists errs, @checkDepthStartEnd ref (JArr [range 0 5; range 10 20]) JUndefined = Ok errs.
Proof.
  apply (@checkDepthStartEnd_returns ref [range 0 5; range 10 20] JUndefined).
  intros v [<-|[<-|[]]]; split; discriminate.
Defined.

Lemma groupBy_returns_0_1_3_10 :
  exists groups,
    @groupByDepthStartEnd ref (JArr [sample 0; sample 1; sample 3; sample 10])
      (JArr [range 0 1; range 1 4]) JUndefined = Ok (JArr groups).
Proof.
  apply (@groupBy_returns ref ref_isnum_null ref_cdbl_ToNumber ref_cdbl_not_nan
           ref_isearr_objects [sample 0; sample 1; sample 3; sample 10] (JArr [range 0 1; range 1 4]) JUndefined).
  - discriminate.
  - left. reflexivity.
  - intros v [<-|[<-|[<-|[<-|[]]]]]; reflexivity.
  - intros srt H. vm_compute in H. injection H as <-.
    intros [|[|[|k]]] Hk; try (vm_compute; reflexivity). simpl in Hk. lia.
  - intros r [<-|[<-|[]]]; vm_compute; auto.
  - intros [|[|k]] r0 r1 H0 H1; simpl in H0, H1; try discriminate;
      try (destruct k; discriminate).
    injection H0 as <-. injection H1 as <-. vm_compute. reflexivity.
Defined.

(** ** The further properties at concrete inputs *)

(** The example of the source with the renamed depth field. *)
Example calc_renamed_keys :
  @calcDepthStartEndFromCenter ref
    (JArr [JObj [("center", JNum 0)]; JObj [("center", JNum 6)]; JObj [("center", JNum 20)]])
    (JObj [("keyDepth", JStr "center"); ("keyDepthStart", JStr "ds"); ("keyDepthEnd", JStr "de")]) =
  Ok (JArr [JObj [("center", JNum 0); ("ds", JNum 0); ("de", JNum 3)];
            JObj [("center", JNum 6); ("ds", JNum 3); ("de", JNum 13)];
            JObj [("center", JNum 20); ("ds", JNum 13); ("de", JNum 20)]]).
Proof. vm_compute. reflexivity. Qed.


Lemma calc_named_6_0 :
  @calcDepthStartEndFromCenter ref
    (JArr [JObj [("depth", JNum 6); ("name", JStr "b")];
           JObj [("name", JStr "a"); ("depth", JNum 0)]]) JUndefined =
  Ok (JArr [JObj [("name", JStr "a"); ("depth", JNum 0);
                  ("depthStart", JNum 0); ("depthEnd", JNum 3)];
            JObj [("depth", JNum 6); ("name", JStr "b");
                  ("depthStart", JNum 3); ("depthEnd", JNum 6)]]).
Proof. vm_compute. reflexivity. Qed.

Lemma calc_keeps_names_6_0 :
  exists srt out,
    JArr [JObj [("name", JStr "a"); ("depth", JNum 0);
                ("depthStart", JNum 0); ("depthEnd", JNum 3)];
          JObj [("depth", JNum 6); ("name", JStr "b");
                ("depthStart", JNum 3); ("depthEnd", JNum 6)]] = JArr out /\
    sortBy [JObj [("depth", JNum 6); ("name", JStr "b")];
            JObj [("name", JStr "a"); ("depth", JNum 0)]]
      (fun v => x <- member v "depth" ;; Ok (@cdbl ref x)) = Ok srt /\
    Permutation srt [JObj [("depth", JNum 6); ("name", JStr "b")];
                     JObj [("name", JStr "a"); ("depth", JNum 0)]] /\
    List.length out = List.length srt /\
    forall i key dflt,
      key <> "depthStart" -> key <> "depthEnd" ->
      get (nth i out JUndefined) key dflt = get (nth i srt JUndefined) key dflt.
Proof.
  exact (@calc_keeps_other_fields ref _ JUndefined _ calc_named_6_0).
Defined.

Lemma calc_returns_iff_distinct_20_4_6 :
  (exists out,
     @calcDepthStartEndFromCenter ref (JArr [sample 20; sample 4; sample 6]) JUndefined =
     Ok (JArr out)) <->
  ForallOrdPairs (fun a b => PrimFloat.eqb (@cdbl ref (get a "depth" JNull))
                                           (@cdbl ref (get b "depth" JNull)) = false)
    [sample 20; sample 4; sample 6].
Proof.
  apply (@calc_returns_iff_distinct ref ref_isnum_null ref_cdbl_not_nan ref_isearr_objects
           ref_path_of_name [sample 20; sample 4; sample 6] JUndefined).
  - reflexivity.
  - discriminate.
  - intros v [<-|[<-|[<-|[]]]]; reflexivity.
Defined.


Lemma calc_rows_ascending_4_6_20 :
  StronglySorted (fun a b => PrimFloat.ltb (@cdbl ref (get a "depth" JNull))
                                           (@cdbl ref (get b "depth" JNull)) = true)
    [JObj [("depth", JNum 4); ("depthStart", JNum 0); ("depthEnd", JNum 5)];
     JObj [("depth", JNum 6); ("depthStart", JNum 5); ("depthEnd", JNum 13)];
     JObj [("depth", JNum 20); ("depthStart", JNum 13); ("depthEnd", JNum 20)]].
Proof.
  apply (@calc_rows_ascending ref ref_isnum_null ref_cdbl_idem ref_cdbl_not_nan
           ref_isearr_elements ref_path_of_name
           (JArr [sample 20; sample 4; sample 6]) JUndefined _).
  - reflexivity.
  - discriminate.
  - discriminate.
  - exact calc_4_6_20.
Defined.

Lemma calc_idempotent_0_6_20 :
  @calcDepthStartEndFromCenter ref
    (JArr [JObj [("depth", JNum 0); ("depthStart", JNum 0); ("depthEnd", JNum 3)];
           JObj [("depth", JNum 6); ("depthStart", JNum 3); ("depthEnd", JNum 13)];
           JObj [("depth", JNum 20); ("depthStart", JNum 13); ("depthEnd", JNum 20)]])
    JUndefined =
  Ok (JArr [JObj [("depth", JNum 0); ("depthStart", JNum 0); ("depthEnd", JNum 3)];
            JObj [("depth", JNum 6); ("depthStart", JNum 3); ("depthEnd", JNum 13)];
            JObj [("depth", JNum 20); ("depthStart", JNum 13); ("depthEnd", JNum 20)]]).
Proof.
  apply (@calc_idempotent ref ref_isnum_null ref_cdbl_idem ref_cdbl_not_nan
           ref_isearr_objects ref_isearr_elements ref_path_of_name
           (JArr [sample 0; sample 6; sample 20]) JUndefined _).
  - reflexivity.
  - discriminate.
  - discriminate.
  - discriminate.
  - exact calc_0_6_20.
Defined.



Lemma group_rows_ascending_0_1 :
  StronglySorted (fun a b => PrimFloat.leb (@cdbl ref (get a "depth" JNull))
                                           (@cdbl ref (get b "depth" JNull)) = true)
    (rowsOf (nth 0
      [JObj [("depthStart", JNum 0); ("depthEnd", JNum 1); ("rows", JArr [sample 0; sample 1])];
       JObj [("depthStart", JNum 1); ("depthEnd", JNum 4); ("rows", JArr [sample 3])]]
      JUndefined)).
Proof.
  exact (@group_rows_ascending ref ref_isnum_null ref_cdbl_ToNumber ref_cdbl_not_nan
           (JArr [sample 0; sample 1; sample 3; sample 10]) (JArr [range 0 1; range 1 4])
           JUndefined _ 0%nat group_0_1_3_10).
Defined.



Lemma groupBy_order_independent_20_4_6 :
  @groupByDepthStartEnd ref (JArr [sample 20; sample 4; sample 6])
    (JArr [range 0 5; range 5 30]) JUndefined =
  @groupByDepthStartEnd ref (JArr [sample 4; sample 6; sample 20])
    (JArr [range 0 5; range 5 30]) JUndefined.
Proof.
  apply (@groupBy_order_independent ref ref_isnum_null ref_cdbl_not_nan ref_isearr_objects
           [sample 4; sample 6; sample 20] [sample 20; sample 4; sample 6]
           (JArr [range 0 5; range 5 30]) JUndefined).
  - exact (Permutation_sym (Permutation_cons_append [sample 4; sample 6] (sample 20))).
  - intros v [<-|[<-|[<-|[]]]]; reflexivity.
  - repeat constructor.
Defined.






